(** * Graphical analysis of PET time-activity curves (pet_cli/graphical_analysis.py)

    Shallow embedding of the numerical core of [graphical_analysis.py]:
    the trapezoidal cumulative integral, the threshold locator, the
    least-squares line fit and the Patlak / Logan / alternative Logan
    transforms with their dispatcher.

    Modelling choices:
    - a 1-D numpy array of float64 is a [list Q]; arithmetic is exact
      rational arithmetic (division by zero yields 0 in [Q], where numpy
      yields inf/nan; no statement below depends on that case);
    - an operation that raises in Python returns [None];
    - elementwise array operations follow numpy broadcasting for 1-D
      arrays (equal lengths, or one operand of length 1);
    - [x[t:]] follows Python slicing, negative starts counting from the end. *)

From Stdlib Require Import QArith Qfield Qround Lqa List ZArith Lia Bool.
From Stdlib Require Import Sorting.Mergesort Sorting.Permutation Sorting.Sorted Orders.
From Stdlib Require String.
Import (notations) String.
Import ListNotations.

Open Scope Q_scope.

Module NumpyModel.

(** Elementwise binary operation on two 1-D arrays, with broadcasting. *)
Definition bcast (f : Q -> Q -> Q) (xs ys : list Q) : option (list Q) :=
  if Nat.eqb (length xs) (length ys) then Some (map (fun p => f (fst p) (snd p)) (combine xs ys))
  else match xs, ys with
       | [x], _ => Some (map (f x) ys)
       | _, [y] => Some (map (fun x => f x y) xs)
       | _, _ => None
       end.

(** [np.diff] of a 1-D array. *)
Fixpoint diff (xs : list Q) : list Q :=
  match xs with
  | x :: ((y :: _) as r) => (y - x) :: diff r
  | _ => []
  end.

(** [np.cumsum]: running sum, accumulated left to right. *)
Fixpoint cumsum_acc (acc : Q) (xs : list Q) : list Q :=
  match xs with
  | [] => []
  | x :: r => (acc + x) :: cumsum_acc (acc + x) r
  end.

Definition cumsum (xs : list Q) : list Q :=
  match xs with
  | [] => []
  | x :: r => x :: cumsum_acc x r
  end.

(** [a[1:]] and [a[:-1]]. *)
Definition tail_from1 (xs : list Q) : list Q := skipn 1 xs.
Definition drop_last (xs : list Q) : list Q := firstn (length xs - 1) xs.

(** Python slice start [t] of [a[t:]] resolved against the length. *)
Definition slice_start (len : nat) (t : Z) : nat :=
  if (t <? 0)%Z then Z.to_nat (Z.max 0 (Z.of_nat len + t))
  else Nat.min (Z.to_nat t) len.

Definition py_slice_from {A} (xs : list A) (t : Z) : list A :=
  skipn (slice_start (length xs) t) xs.

(** Strict comparison of two floats, [x < y]. *)
Definition Qlt_bool (x y : Q) : bool := negb (Qle_bool y x).

(** Sum of a 1-D array. *)
Definition qsum (xs : list Q) : Q := fold_right Qplus 0 xs.

(** [np.max] of a 1-D array, scanning left to right; raises on an empty array. *)
Definition max_step (m y : Q) : Q := if Qlt_bool m y then y else m.

Definition np_max (xs : list Q) : option Q :=
  match xs with
  | [] => None
  | x :: r => Some (fold_left max_step r x)
  end.

(** [np.argwhere(mask)[0, 0]] for a 1-D boolean mask: the first index where
    the mask holds; [IndexError] (here [None]) if there is none. *)
Fixpoint argwhere_first_from (i : nat) (mask : list bool) : option nat :=
  match mask with
  | [] => None
  | b :: r => if b then Some i else argwhere_first_from (S i) r
  end.

Definition argwhere_first (mask : list bool) : option nat := argwhere_first_from 0 mask.

End NumpyModel.

Import NumpyModel.

(** ** [cumulative_trapezoidal_integral] (lines 52-72)
<<
    dx = np.diff(xdata)
    cum_int = np.zeros(len(xdata))
    cum_int[0] = initial
    cum_int[1:] = np.cumsum(dx * (ydata[1:] + ydata[:-1]) / 2.0)
>>
    The slice assignment [cum_int[1:] = v] accepts a [v] of the slice's
    length, or of length 1 (broadcast). *)
Definition assign_from1 (cum : list Q) (v : list Q) : option (list Q) :=
  match cum with
  | [] => None
  | c0 :: r =>
      if Nat.eqb (length v) (length r) then Some (c0 :: v)
      else match v with
           | [a] => Some (c0 :: map (fun _ => a) r)
           | _ => None
           end
  end.

Definition cumulative_trapezoidal_integral (xdata ydata : list Q) (initial : Q)
  : option (list Q) :=
  let dx := diff xdata in
  let cum_int := repeat 0 (length xdata) in
  match cum_int with
  | [] => None                                   (* cum_int[0]: IndexError *)
  | _ :: rest =>
      let cum_int := initial :: rest in
      match bcast Qplus (tail_from1 ydata) (drop_last ydata) with
      | None => None
      | Some s =>
          match bcast Qmult dx s with
          | None => None
          | Some prod => assign_from1 cum_int (cumsum (map (fun v => v / 2) prod))
          end
      end
  end.

(** ** [get_index_from_threshold] (lines 100-117)
<<
    if t_thresh_in_minutes > np.max(times_in_minutes):
        return -1
    else:
        return np.argwhere(times_in_minutes >= t_thresh_in_minutes)[0, 0]
>> *)
Definition get_index_from_threshold (times_in_minutes : list Q) (t_thresh_in_minutes : Q)
  : option Z :=
  match np_max times_in_minutes with
  | None => None                                 (* np.max of an empty array raises *)
  | Some mx =>
      if Qlt_bool mx t_thresh_in_minutes then Some (-1)%Z
      else match argwhere_first (map (fun t => Qle_bool t_thresh_in_minutes t) times_in_minutes) with
           | None => None                         (* [0, 0] on an empty result: IndexError *)
           | Some i => Some (Z.of_nat i)
           end
  end.

(** ** [np.linalg.lstsq] for an [m x 2] matrix, in exact arithmetic.

    Rows of the matrix are pairs.  [lstsq] returns the minimum-norm
    least-squares solution: through the normal equations [G z = g], with
    [G = A^T A] and [g = A^T b], solved by Cramer's rule when [G] is
    invertible; when [G] has rank one its pseudo-inverse is [G / tr(G)^2];
    when [A = 0] the solution is [0].  Different row counts in [A] and [b]
    raise [LinAlgError]. *)
Definition gram (A : list (Q * Q)) : Q * Q * Q :=
  (qsum (map (fun r => fst r * fst r) A),
   qsum (map (fun r => fst r * snd r) A),
   qsum (map (fun r => snd r * snd r) A)).

Definition rhs (A : list (Q * Q)) (b : list Q) : Q * Q :=
  (qsum (map (fun p => fst (fst p) * snd p) (combine A b)),
   qsum (map (fun p => snd (fst p) * snd p) (combine A b))).

Definition lstsq (A : list (Q * Q)) (b : list Q) : option (Q * Q) :=
  if negb (Nat.eqb (length A) (length b)) then None
  else
    let '(saa, sab, sbb) := gram A in
    let '(ga, gb) := rhs A b in
    let det := saa * sbb - sab * sab in
    if negb (Qeq_bool det 0) then
      Some ((sbb * ga - sab * gb) / det, (saa * gb - sab * ga) / det)
    else
      let tau := saa + sbb in
      if Qeq_bool tau 0 then Some (0, 0)
      else Some ((saa * ga + sab * gb) / (tau * tau), (sab * ga + sbb * gb) / (tau * tau)).

(** ** [_line_fitting_make_rhs_matrix_from_xdata] (lines 16-29)
<<
    out_matrix = np.ones((len(xdata), 2), float)
    out_matrix[:, 0] = xdata
>> *)
Definition _line_fitting_make_rhs_matrix_from_xdata (xdata : list Q) : list (Q * Q) :=
  map (fun x => (x, 1)) xdata.

(** ** [fit_line_to_data_using_lls] (lines 31-49) *)
Definition fit_line_to_data_using_lls (xdata ydata : list Q) : option (Q * Q) :=
  let matrix := _line_fitting_make_rhs_matrix_from_xdata xdata in
  lstsq matrix ydata.

(** ** [calculate_patlak_x] (lines 76-97) *)
Definition calculate_patlak_x (tac_times tac_vals : list Q) : option (list Q) :=
  match cumulative_trapezoidal_integral tac_times tac_vals 0 with
  | None => None
  | Some cumulative_integral => bcast Qdiv cumulative_integral tac_vals
  end.

(** A method: [(input_tac_values, region_tac_values, tac_times_in_minutes,
    t_thresh_in_minutes)] to the fitted [(slope, intercept)]. *)
Definition analysis := list Q -> list Q -> list Q -> Q -> option (Q * Q).

(** ** [patlak_analysis] (lines 120-148) *)
Definition patlak_analysis : analysis :=
  fun input_tac_values region_tac_values tac_times_in_minutes t_thresh_in_minutes =>
  match get_index_from_threshold tac_times_in_minutes t_thresh_in_minutes with
  | None => None
  | Some t_thresh =>
      match calculate_patlak_x tac_times_in_minutes input_tac_values with
      | None => None
      | Some patlak_x =>
          match bcast Qdiv region_tac_values input_tac_values with
          | None => None
          | Some patlak_y =>
              fit_line_to_data_using_lls (py_slice_from patlak_x t_thresh)
                                         (py_slice_from patlak_y t_thresh)
          end
      end
  end.

(** ** [logan_analysis] (lines 151-179) *)
Definition logan_analysis : analysis :=
  fun input_tac_values region_tac_values tac_times_in_minutes t_thresh_in_minutes =>
  match get_index_from_threshold tac_times_in_minutes t_thresh_in_minutes with
  | None => None
  | Some t_thresh =>
      match cumulative_trapezoidal_integral tac_times_in_minutes input_tac_values 0 with
      | None => None
      | Some ci =>
      match bcast Qdiv ci region_tac_values with
      | None => None
      | Some logan_x =>
      match cumulative_trapezoidal_integral tac_times_in_minutes region_tac_values 0 with
      | None => None
      | Some cr =>
      match bcast Qdiv cr region_tac_values with
      | None => None
      | Some logan_y =>
          fit_line_to_data_using_lls (py_slice_from logan_x t_thresh)
                                     (py_slice_from logan_y t_thresh)
      end end end end
  end.

(** ** [alternative_logan_analysis] (lines 182-210) *)
Definition alternative_logan_analysis : analysis :=
  fun input_tac_values region_tac_values tac_times_in_minutes t_thresh_in_minutes =>
  match get_index_from_threshold tac_times_in_minutes t_thresh_in_minutes with
  | None => None
  | Some t_thresh =>
      match cumulative_trapezoidal_integral tac_times_in_minutes input_tac_values 0 with
      | None => None
      | Some ci =>
      match bcast Qdiv ci region_tac_values with
      | None => None
      | Some alt_logan_x =>
      match cumulative_trapezoidal_integral tac_times_in_minutes region_tac_values 0 with
      | None => None
      | Some cr =>
      match bcast Qdiv cr input_tac_values with
      | None => None
      | Some alt_logan_y =>
          fit_line_to_data_using_lls (py_slice_from alt_logan_x t_thresh)
                                     (py_slice_from alt_logan_y t_thresh)
      end end end end
  end.

(** ** [get_graphical_analysis_method] (lines 213-246)

    The raised [ValueError] carries its message. *)
Inductive py_error := ValueError (msg : String.string).

Definition get_graphical_analysis_method (method_name : String.string) : analysis + py_error :=
  if String.eqb method_name "patlak"%string then inl patlak_analysis
  else if String.eqb method_name "logan"%string then inl logan_analysis
  else if String.eqb method_name "alt_logan"%string then inl alternative_logan_analysis
  else inr (ValueError
              ("Invalid method_name! Must be either 'patlak', 'logan', or 'alt_logan'. Got "
               ++ method_name)%string).

(** ** Reference formulations used in the statements below *)

(** The pairwise sums [values[i] + values[i-1]], [i >= 1]. *)
Fixpoint adj_sums (ys : list Q) : list Q :=
  match ys with
  | y0 :: ((y1 :: _) as r) => (y1 + y0) :: adj_sums r
  | _ => []
  end.

(** The trapezoid areas [(times[i]-times[i-1]) * (values[i]+values[i-1]) / 2],
    [i >= 1]. *)
Fixpoint trap_areas (xs ys : list Q) : list Q :=
  match xs, ys with
  | x0 :: ((x1 :: _) as xr), y0 :: ((y1 :: _) as yr) => ((x1 - x0) * (y1 + y0)) / 2 :: trap_areas xr yr
  | _, _ => []
  end.

(** The [i]-th trapezoid area read off the two sequences by index. *)
Definition trap_area (times values : list Q) (i : nat) : Q :=
  (nth i times 0 - nth (i - 1) times 0) * (nth i values 0 + nth (i - 1) values 0) / 2.

(** The method table of the specification, written from its words: each
    transform (a) locates the threshold index, (b) builds its [x] and [y]
    sequences, (c) slices both from that index to the end and (d) fits a
    line to the slices. *)
Definition cumulative_integral (times values : list Q) : option (list Q) :=
  cumulative_trapezoidal_integral times values 0.

Definition elementwise_div (xs ys : list Q) : option (list Q) := bcast Qdiv xs ys.

Definition transform_from_table
  (coords : list Q -> list Q -> list Q -> option (list Q * list Q)) : analysis :=
  fun input_values region_values times t_thresh =>
  match get_index_from_threshold times t_thresh with
  | None => None
  | Some idx =>
      match coords input_values region_values times with
      | None => None
      | Some (x, y) => fit_line_to_data_using_lls (py_slice_from x idx) (py_slice_from y idx)
      end
  end.

Definition patlak_table_coords (input_values region_values times : list Q)
  : option (list Q * list Q) :=
  match cumulative_integral times input_values with
  | None => None
  | Some ci =>
      match elementwise_div ci input_values, elementwise_div region_values input_values with
      | Some x, Some y => Some (x, y)
      | _, _ => None
      end
  end.

Definition logan_table_coords (input_values region_values times : list Q)
  : option (list Q * list Q) :=
  match cumulative_integral times input_values, cumulative_integral times region_values with
  | Some ci, Some cr =>
      match elementwise_div ci region_values, elementwise_div cr region_values with
      | Some x, Some y => Some (x, y)
      | _, _ => None
      end
  | _, _ => None
  end.

Definition alt_logan_table_coords (input_values region_values times : list Q)
  : option (list Q * list Q) :=
  match cumulative_integral times input_values, cumulative_integral times region_values with
  | Some ci, Some cr =>
      match elementwise_div ci region_values, elementwise_div cr input_values with
      | Some x, Some y => Some (x, y)
      | _, _ => None
      end
  | _, _ => None
  end.

(** A fitted pair with both coordinates in lowest terms. *)
Definition qred_pair (r : Q * Q) : Q * Q := (Qred (fst r), Qred (snd r)).

(** Ordinary least squares for [y ~ slope * x + intercept]: the residual
    sum of squares and the two normal equations
    [sum x_i r_i = 0] and [sum r_i = 0], with [r_i = slope * x_i + intercept - y_i]. *)
Definition residual (slope intercept : Q) (p : Q * Q) : Q := slope * fst p + intercept - snd p.

Definition rss (slope intercept : Q) (xdata ydata : list Q) : Q :=
  qsum (map (fun p => residual slope intercept p * residual slope intercept p) (combine xdata ydata)).

Definition normal_eq_x (slope intercept : Q) (xdata ydata : list Q) : Q :=
  qsum (map (fun p => fst p * residual slope intercept p) (combine xdata ydata)).

Definition normal_eq_1 (slope intercept : Q) (xdata ydata : list Q) : Q :=
  qsum (map (fun p => residual slope intercept p) (combine xdata ydata)).

(** * pet_cli/image_derived_input_function.py

    Image arrays hold float64 values that may be NaN: a voxel value is an
    [fval].  NaN is absorbing for arithmetic and every comparison with it is
    false.  A 3-D image is its shape with its voxels in C order; a 4-D PET
    array (time first) is its shape with one C-ordered voxel list per frame;
    the 4-D "necktangle" array (time last) is its spatial shape, its number
    of time points and one time series per voxel, voxels in C order. *)
Module Idif.

Inductive fval := Num (q : Q) | NaN.

Definition fadd (a b : fval) : fval :=
  match a, b with Num x, Num y => Num (x + y) | _, _ => NaN end.
Definition fmul (a b : fval) : fval :=
  match a, b with Num x, Num y => Num (x * y) | _, _ => NaN end.
Definition is_nan (a : fval) : bool := match a with NaN => true | Num _ => false end.
(** [a < b]; false when either side is NaN. *)
Definition flt (a b : fval) : bool :=
  match a, b with Num x, Num y => Qlt_bool x y | _, _ => false end.
(** [a == b]; false when either side is NaN. *)
Definition feq (a b : fval) : bool :=
  match a, b with Num x, Num y => Qeq_bool x y | _, _ => false end.

Definition size3 (sh : nat * nat * nat) : nat := let '(h, w, d) := sh in h * w * d.

Record img3 := mk_img3 { img_shape : nat * nat * nat; img_vox : list fval }.
Record pet4d := mk_pet4d { pet_shape : nat * (nat * nat * nat); pet_frames : list (list fval) }.
Record necktangle := mk_necktangle
  { nk_dims : nat * nat * nat; nk_t : nat; nk_series : list (list fval) }.

(** Python slice [xs[start:stop]]. *)
Definition py_slice {A} (xs : list A) (start stop : Z) : list A :=
  skipn (slice_start (length xs) start) (firstn (slice_start (length xs) stop) xs).

(** [np.mean] of a flat sequence: NaN when it is empty (with a
    RuntimeWarning) or when one element is NaN. *)
Definition np_mean (xs : list fval) : fval :=
  match xs with
  | [] => NaN
  | _ => match fold_right fadd (Num 0) xs with
         | Num s => Num (s / inject_Z (Z.of_nat (length xs)))
         | NaN => NaN
         end
  end.

(** [np.nanmean]: the mean of the non-NaN elements, NaN when there is none. *)
Definition np_nanmean (xs : list fval) : fval := np_mean (filter (fun v => negb (is_nan v)) xs).

(** The non-NaN values. *)
Fixpoint nums (xs : list fval) : list Q :=
  match xs with
  | [] => []
  | Num q :: r => q :: nums r
  | NaN :: r => nums r
  end.

Module QLe <: TotalLeBool'.
Definition t := Q.
Definition leb := Qle_bool.
Lemma leb_total : forall x y, leb x y = true \/ leb y x = true.
Proof.
  intros x y. unfold leb. rewrite !Qle_bool_iff.
  destruct (Qlt_le_dec x y); [left; apply Qlt_le_weak; assumption|right; assumption].
Qed.
End QLe.

Module QSort := Sort QLe.

(** [np.nanpercentile(xs, q)] with the default linear method: [q] outside
    [[0, 100]] raises [ValueError]; with no non-NaN value the result is NaN;
    otherwise the sorted values are interpolated at virtual index
    [(n - 1) * q / 100]. *)
Definition np_nanpercentile (xs : list fval) (q : Q) : option fval :=
  if negb (Qle_bool 0 q && Qle_bool q 100) then None
  else
    match QSort.sort (nums xs) with
    | [] => Some NaN
    | v =>
        let n := length v in
        let virtual := (inject_Z (Z.of_nat n) - 1) * q / 100 in
        let prev := Z.to_nat (Qfloor virtual) in
        let next := Nat.min (S prev) (n - 1) in
        let gamma := virtual - inject_Z (Z.of_nat prev) in
        let a := nth prev v 0 in
        let b := nth next v 0 in
        Some (Num (a + (b - a) * gamma))
    end.

(** [np.argmax]: the first maximal index, or the first NaN; [ValueError] on
    an empty sequence. *)
Fixpoint argmax_go (i bi : nat) (bv : fval) (xs : list fval) : nat :=
  match xs with
  | [] => bi
  | x :: r =>
      match bv, x with
      | NaN, _ => bi
      | Num _, NaN => i
      | Num b, Num y => if Qlt_bool b y then argmax_go (S i) i x r else argmax_go (S i) bi bv r
      end
  end.

Definition np_argmax (xs : list fval) : option nat :=
  match xs with
  | [] => None
  | x :: r => Some (argmax_go 1 0 x r)
  end.

(** Map a fallible function over a list; the first failure is the result. *)
Fixpoint omap {A B} (f : A -> option B) (xs : list A) : option (list B) :=
  match xs with
  | [] => Some []
  | x :: r => match f x, omap f r with Some y, Some ys => Some (y :: ys) | _, _ => None end
  end.

(** ** [make_early_mean_image_from_4d_pet] (lines 5-27) *)
Definition make_early_mean_image_from_4d_pet (pet_4d_data : pet4d) (start_frame end_frame : Z)
  : option img3 :=
  if (start_frame <? 0)%Z || (Z.of_nat (fst (pet_shape pet_4d_data)) <=? end_frame)%Z then None
  else
    let sel := py_slice (pet_frames pet_4d_data) start_frame (end_frame + 1) in
    let sh := snd (pet_shape pet_4d_data) in
    Some (mk_img3 sh (map (fun i => np_mean (map (fun f => nth i f NaN) sel)) (seq 0 (size3 sh)))).



(** ** [make_threshold_binary_mask] (lines 52-65) *)
Definition make_threshold_binary_mask (masked_data : img3) (threshold : Q) : img3 :=
  mk_img3 (img_shape masked_data)
    (map (fun v => if flt v (Num threshold) then Num 0 else Num 1) (img_vox masked_data)).

(** ** [apply_threshold_binary_mask_to_4d_pet] (lines 68-81)

    [pet_4d_data * threshold_binary_data] broadcasts the 3-D mask against
    the last three axes: per axis the sizes agree or one of them is 1. *)
Definition bdim (a b : nat) : option nat :=
  if Nat.eqb a b then Some a
  else if Nat.eqb a 1 then Some b
  else if Nat.eqb b 1 then Some a
  else None.

Definition bidx (n i : nat) : nat := if Nat.eqb n 1 then 0 else i.

Definition apply_threshold_binary_mask_to_4d_pet (pet_4d_data : pet4d) (threshold_binary_data : img3)
  : option pet4d :=
  let '(t, (h, w, d)) := pet_shape pet_4d_data in
  let '(h', w', d') := img_shape threshold_binary_data in
  match bdim h h', bdim w w', bdim d d' with
  | Some H, Some W, Some D =>
      let src_pet (r : nat) : nat :=
        ((bidx h (r / (W * D)) * w + bidx w ((r / D) mod W)) * d + bidx d (r mod D))%nat in
      let src_mask (r : nat) : nat :=
        ((bidx h' (r / (W * D)) * w' + bidx w' ((r / D) mod W)) * d' + bidx d' (r mod D))%nat in
      Some (mk_pet4d (t, (H, W, D))
              (map (fun f => map (fun r => fmul (nth (src_pet r) f NaN)
                                                (nth (src_mask r) (img_vox threshold_binary_data) NaN))
                                 (seq 0 (H * W * D)%nat))
                   (pet_frames pet_4d_data)))
  | _, _, _ => None
  end.

(** ** [average_masked_4d_pet_into_tac] (lines 84-95) *)
Definition average_masked_4d_pet_into_tac (masked_4d_pet_data : pet4d) : list fval :=
  map np_mean (pet_frames masked_4d_pet_data).

(** ** [get_frame_time_midpoints] (lines 101-115); [astype(int)] truncates
    toward zero. *)
Definition qtrunc (q : Q) : Z := Z.quot (Qnum q) (Zpos (Qden q)).

Definition get_frame_time_midpoints (frame_start_times frame_duration_times : list Q)
  : option (list Z) :=
  match bcast Qplus frame_start_times (map (fun d => d / 2) frame_duration_times) with
  | None => None
  | Some m => Some (map qtrunc m)
  end.

(** ** [load_fslmeants_to_numpy] (lines 118-146)

    The input is the numeric table of the text file, one list per line; the
    text parsing of [np.loadtxt] is not modelled.  [np.loadtxt] raises on
    lines of different lengths, and squeezes a table with a single line or
    a single column to a 1-D array, whose [data[0]] is a scalar on which
    [min] raises [TypeError]. *)
Definition py_min (xs : list Z) : option Z :=
  match xs with [] => None | x :: r => Some (fold_left Z.min r x) end.
Definition py_max (xs : list Z) : option Z :=
  match xs with [] => None | x :: r => Some (fold_left Z.max r x) end.

(** numpy index [i] on an axis of size [dim]: negative indices count from
    the end; out of range raises [IndexError]. *)
Definition np_index (dim : nat) (i : Z) : option nat :=
  if ((0 <=? i) && (i <? Z.of_nat dim))%Z then Some (Z.to_nat i)
  else if ((- Z.of_nat dim <=? i) && (i <? 0))%Z then Some (Z.to_nat (Z.of_nat dim + i))
  else None.

(** [l[i] = v] on a list, [IndexError] out of range. *)
Definition list_set {A} (l : list A) (i : nat) (v : A) : option (list A) :=
  if Nat.ltb i (length l) then Some (firstn i l ++ v :: skipn (S i) l) else None.

Definition load_fslmeants_to_numpy (table : list (list Q)) : option necktangle :=
  match table with
  | [] => None
  | row :: _ =>
  let cols := length row in
  if negb (forallb (fun r => Nat.eqb (length r) cols) table) then None
  else if Nat.ltb (length table) 2 || Nat.ltb cols 2 then None
  else
  match table with
  | r0 :: r1 :: r2 :: rest =>
      let xs := map qtrunc r0 in
      let ys := map qtrunc r1 in
      let zs := map qtrunc r2 in
      match py_min xs, py_min ys, py_min zs, py_max xs, py_max ys, py_max zs with
      | Some x_coord_min, Some y_coord_min, Some z_coord_min, Some x_max, Some y_max, Some z_max =>
          let x_dim := Z.to_nat (x_max - x_coord_min + 1) in
          let y_dim := Z.to_nat (y_max - y_coord_min + 1) in
          let z_dim := Z.to_nat (z_max - z_coord_min + 1) in
          let t_dim := length rest in
          let necktangled_matrix := repeat (repeat (Num 0) t_dim) (x_dim * y_dim * z_dim) in
          let step (acc : option (list (list fval))) (location : nat) :=
            match acc with
            | None => None
            | Some m =>
                let x_coord := (nth location xs 0 - x_coord_min)%Z in
                let y_coord := (nth location ys 0 - y_coord_min)%Z in
                let z_coord := (nth location zs 0 - z_coord_min)%Z in
                match np_index x_dim x_coord, np_index y_dim y_coord, np_index z_dim z_coord with
                | Some i, Some j, Some k =>
                    list_set m ((i * y_dim + j) * z_dim + k)%nat
                             (map (fun r => Num (nth location r 0)) rest)
                | _, _, _ => None
                end
            end in
          match fold_left step (seq 0 cols) (Some necktangled_matrix) with
          | Some m => Some (mk_necktangle (x_dim, y_dim, z_dim) t_dim m)
          | None => None
          end
      | _, _, _, _, _, _ => None
      end
  | _ => None
  end
  end.

(** ** [get_idif_from_4d_pet_necktangle] (lines 149-184)

    Returns the two rows of [tac]; [idif_frame_averages] is the local
    [frame_averages] of lines 169-170. *)
Definition idif_frame_averages (necktangle_matrix : necktangle) : list fval :=
  let first_ten_frames := map (firstn 10) (nk_series necktangle_matrix) in
  map (fun t => np_nanmean (map (fun s => nth t s NaN) first_ten_frames))
      (seq 0 (Nat.min 10 (nk_t necktangle_matrix))).

Definition get_idif_from_4d_pet_necktangle (necktangle_matrix : necktangle) (percentile : Q)
    (frame_midpoint_times : list Q) : option (list fval * list fval) :=
  let series := nk_series necktangle_matrix in
  let T := nk_t necktangle_matrix in
  let frame_averages := idif_frame_averages necktangle_matrix in
  match np_argmax frame_averages with
  | None => None
  | Some bolus_index =>
      let bolus_window_4d :=
        map (fun s => py_slice s (Z.of_nat bolus_index - 1) (Z.of_nat bolus_index + 2)) series in
      let bolus_window_average_3d := map np_nanmean bolus_window_4d in
      match np_nanpercentile bolus_window_average_3d 90 with
      | None => None
      | Some automatic_threshold_value =>
          let automatic_threshold_mask_3d :=
            map (fun a => if flt automatic_threshold_value a then Num 1 else NaN)
                bolus_window_average_3d in
          let row0 :=
            if Nat.eqb (length frame_midpoint_times) T then Some (map Num frame_midpoint_times)
            else match frame_midpoint_times with [x] => Some (repeat (Num x) T) | _ => None end in
          match row0 with
          | None => None
          | Some row0 =>
              match omap (fun frame =>
                            let current_frame := map (fun s => nth frame s NaN) series in
                            let automatic_masked_frame :=
                              map (fun p => if feq (fst p) (Num 1) then snd p else NaN)
                                  (combine automatic_threshold_mask_3d current_frame) in
                            np_nanpercentile automatic_masked_frame percentile)
                         (seq 0 T) with
              | None => None
              | Some row1 => Some (row0, row1)
              end
          end
      end
  end.

End Idif.

(** * Properties *)

Module IntegralFacts.

Lemma length_diff xs : length (diff xs) = (length xs - 1)%nat.
Proof.
  induction xs as [|x r IH]; [reflexivity|].
  destruct r as [|y r']; [reflexivity|].
  change (diff (x :: y :: r')) with ((y - x) :: diff (y :: r')).
  simpl length in *. rewrite IH. lia.
Qed.

Lemma length_adj_sums ys : length (adj_sums ys) = (length ys - 1)%nat.
Proof.
  induction ys as [|y r IH]; [reflexivity|].
  destruct r as [|y' r']; [reflexivity|].
  change (adj_sums (y :: y' :: r')) with ((y' + y) :: adj_sums (y' :: r')).
  simpl length in *. rewrite IH. lia.
Qed.

Lemma drop_last_cons2 y0 y1 r :
  drop_last (y0 :: y1 :: r) = y0 :: drop_last (y1 :: r).
Proof.
  unfold drop_last. simpl length. rewrite !Nat.sub_succ, !Nat.sub_0_r. reflexivity.
Qed.

Lemma adj_sums_eq ys :
  map (fun p => fst p + snd p) (combine (tail_from1 ys) (drop_last ys)) = adj_sums ys.
Proof.
  induction ys as [|y0 r IH]; [reflexivity|].
  destruct r as [|y1 r']; [reflexivity|].
  rewrite drop_last_cons2.
  change (tail_from1 (y0 :: y1 :: r')) with (y1 :: r').
  change (combine (y1 :: r') (y0 :: drop_last (y1 :: r')))
    with ((y1, y0) :: combine r' (drop_last (y1 :: r'))).
  change (adj_sums (y0 :: y1 :: r')) with ((y1 + y0) :: adj_sums (y1 :: r')).
  rewrite map_cons. f_equal. exact IH.
Qed.

Lemma trap_areas_eq xs ys :
  length xs = length ys ->
  map (fun v => v / 2) (map (fun p => fst p * snd p) (combine (diff xs) (adj_sums ys)))
  = trap_areas xs ys.
Proof.
  revert ys. induction xs as [|x0 xr IH]; intros ys Hl; [reflexivity|].
  destruct ys as [|y0 yr]; [discriminate|].
  destruct xr as [|x1 xr']; [reflexivity|].
  destruct yr as [|y1 yr']; [discriminate|].
  simpl in Hl.
  change (diff (x0 :: x1 :: xr')) with ((x1 - x0) :: diff (x1 :: xr')).
  change (adj_sums (y0 :: y1 :: yr')) with ((y1 + y0) :: adj_sums (y1 :: yr')).
  change (combine ((x1 - x0) :: diff (x1 :: xr')) ((y1 + y0) :: adj_sums (y1 :: yr')))
    with ((x1 - x0, y1 + y0) :: combine (diff (x1 :: xr')) (adj_sums (y1 :: yr'))).
  rewrite !map_cons, (IH (y1 :: yr')) by (simpl; lia).
  reflexivity.
Qed.

Lemma length_cumsum_acc acc l : length (cumsum_acc acc l) = length l.
Proof. revert acc; induction l; simpl; auto. Qed.

Lemma length_cumsum l : length (cumsum l) = length l.
Proof. destruct l; simpl; [reflexivity|]. rewrite length_cumsum_acc. reflexivity. Qed.

Lemma length_trap_areas xs ys :
  length xs = length ys -> length (trap_areas xs ys) = (length xs - 1)%nat.
Proof.
  intros Hl. rewrite <- trap_areas_eq by exact Hl.
  rewrite !length_map, length_combine, length_diff, length_adj_sums. lia.
Qed.

(** Shape of the result on equal-length, non-empty inputs. *)
Lemma cti_shape xs ys initial :
  length xs = length ys -> xs <> [] ->
  cumulative_trapezoidal_integral xs ys initial
  = Some (initial :: cumsum (trap_areas xs ys)).
Proof.
  intros Hl Hne. unfold cumulative_trapezoidal_integral.
  destruct xs as [|x0 xr]; [congruence|]. simpl repeat.
  unfold bcast at 1.
  replace (Nat.eqb (length (tail_from1 ys)) (length (drop_last ys))) with true
    by (symmetry; apply Nat.eqb_eq; unfold tail_from1, drop_last;
        rewrite length_skipn, length_firstn; lia).
  rewrite adj_sums_eq. unfold bcast.
  replace (Nat.eqb (length (diff (x0 :: xr))) (length (adj_sums ys))) with true
    by (symmetry; apply Nat.eqb_eq; rewrite length_diff, length_adj_sums; lia).
  rewrite trap_areas_eq by exact Hl.
  unfold assign_from1.
  rewrite length_cumsum, length_trap_areas, repeat_length by exact Hl.
  simpl length. replace (S (length xr) - 1)%nat with (length xr) by lia.
  rewrite Nat.eqb_refl. reflexivity.
Qed.

Lemma nth_trap_areas xs ys i :
  length xs = length ys -> (1 <= i < length xs)%nat ->
  nth (i - 1) (trap_areas xs ys) 0 = trap_area xs ys i.
Proof.
  revert ys i. induction xs as [|x0 xr IH]; intros ys i Hl Hi; [simpl in Hi; lia|].
  destruct ys as [|y0 yr]; [discriminate|].
  destruct xr as [|x1 xr']; [simpl in Hi; lia|].
  destruct yr as [|y1 yr']; [discriminate|].
  simpl in Hl, Hi.
  destruct i as [|[|k]]; [lia|reflexivity|].
  change (trap_areas (x0 :: x1 :: xr') (y0 :: y1 :: yr'))
    with (((x1 - x0) * (y1 + y0)) / 2 :: trap_areas (x1 :: xr') (y1 :: yr')).
  replace (S (S k) - 1)%nat with (S k) by lia.
  change (nth (S k) (((x1 - x0) * (y1 + y0)) / 2 :: trap_areas (x1 :: xr') (y1 :: yr')) 0)
    with (nth k (trap_areas (x1 :: xr') (y1 :: yr')) 0).
  replace k with (S k - 1)%nat at 1 by lia.
  rewrite (IH (y1 :: yr') (S k)) by (simpl; lia).
  unfold trap_area. replace (S (S k) - 1)%nat with (S k) by lia.
  replace (S k - 1)%nat with k by lia. reflexivity.
Qed.

Lemma nth_cumsum_acc_succ acc l k :
  (S k < length l)%nat ->
  nth (S k) (cumsum_acc acc l) 0 = nth k (cumsum_acc acc l) 0 + nth (S k) l 0.
Proof.
  revert acc k. induction l as [|x r IH]; intros acc k Hk; [simpl in Hk; lia|].
  simpl in Hk. cbn [cumsum_acc].
  destruct k as [|k'].
  - destruct r as [|y r']; [simpl in Hk; lia|]. reflexivity.
  - change (nth (S (S k')) ((acc + x) :: cumsum_acc (acc + x) r) 0)
      with (nth (S k') (cumsum_acc (acc + x) r) 0).
    rewrite IH by lia. reflexivity.
Qed.

Lemma nth_cumsum_succ l k :
  (S k < length l)%nat ->
  nth (S k) (cumsum l) 0 = nth k (cumsum l) 0 + nth (S k) l 0.
Proof.
  intros Hk. destruct l as [|x r]; [simpl in Hk; lia|].
  simpl in Hk. unfold cumsum.
  destruct k as [|k'].
  - destruct r as [|y r']; [simpl in Hk; lia|]. reflexivity.
  - change (nth (S (S k')) (x :: cumsum_acc x r) 0) with (nth (S k') (cumsum_acc x r) 0).
    rewrite nth_cumsum_acc_succ by lia. reflexivity.
Qed.

Lemma nth_cumsum_acc_sum acc l k :
  (k < length l)%nat -> nth k (cumsum_acc acc l) 0 == acc + qsum (firstn (S k) l).
Proof.
  revert acc k. induction l as [|x r IH]; intros acc k Hk; [simpl in Hk; lia|].
  simpl in Hk. cbn [cumsum_acc].
  destruct k as [|k'].
  - simpl. ring.
  - change (nth (S k') ((acc + x) :: cumsum_acc (acc + x) r) 0)
      with (nth k' (cumsum_acc (acc + x) r) 0).
    rewrite IH by lia. change (firstn (S (S k')) (x :: r)) with (x :: firstn (S k') r).
    simpl qsum. ring.
Qed.

Lemma nth_cumsum_sum l k :
  (k < length l)%nat -> nth k (cumsum l) 0 == qsum (firstn (S k) l).
Proof.
  intros Hk. destruct l as [|x r]; [simpl in Hk; lia|].
  simpl in Hk. unfold cumsum.
  destruct k as [|k'].
  - simpl. ring.
  - change (nth (S k') (x :: cumsum_acc x r) 0) with (nth k' (cumsum_acc x r) 0).
    rewrite nth_cumsum_acc_sum by lia.
    change (firstn (S (S k')) (x :: r)) with (x :: firstn (S k') r). simpl qsum. ring.
Qed.

End IntegralFacts.

Module ThresholdFacts.

Lemma Qlt_bool_iff x y : Qlt_bool x y = true <-> x < y.
Proof.
  unfold Qlt_bool. rewrite negb_true_iff.
  split; intros H.
  - apply Qnot_le_lt. intros Hle. apply Qle_bool_iff in Hle. congruence.
  - destruct (Qle_bool y x) eqn:E; [|reflexivity].
    apply Qle_bool_iff in E. exfalso. apply (Qlt_not_le _ _ H E).
Qed.

Lemma Qlt_bool_false x y : Qlt_bool x y = false <-> y <= x.
Proof.
  unfold Qlt_bool. rewrite negb_false_iff. apply Qle_bool_iff.
Qed.

Lemma fold_max_ge r acc :
  acc <= fold_left max_step r acc /\ (forall y, In y r -> y <= fold_left max_step r acc).
Proof.
  revert acc. induction r as [|y r IH]; intros acc; simpl.
  - split; [apply Qle_refl|tauto].
  - destruct (IH (max_step acc y)) as [H1 H2].
    assert (Hy : y <= max_step acc y /\ acc <= max_step acc y).
    { unfold max_step. destruct (Qlt_bool acc y) eqn:E.
      - apply Qlt_bool_iff in E. split; [apply Qle_refl|apply Qlt_le_weak; exact E].
      - apply Qlt_bool_false in E. split; [exact E|apply Qle_refl]. }
    split.
    + apply (Qle_trans _ _ _ (proj2 Hy) H1).
    + intros z [<-|Hz]; [apply (Qle_trans _ _ _ (proj1 Hy) H1)|apply H2, Hz].
Qed.

Lemma fold_max_in r acc :
  fold_left max_step r acc = acc \/ In (fold_left max_step r acc) r.
Proof.
  revert acc. induction r as [|y r IH]; intros acc; simpl; [left; reflexivity|].
  destruct (IH (max_step acc y)) as [E|E]; [|right; right; exact E].
  rewrite E. unfold max_step. destruct (Qlt_bool acc y); [right; left; reflexivity|left; reflexivity].
Qed.

Lemma np_max_spec times mx :
  np_max times = Some mx -> In mx times /\ forall y, In y times -> y <= mx.
Proof.
  destruct times as [|x r]; simpl; intros H; [discriminate|].
  injection H as <-.
  destruct (fold_max_ge r x) as [H1 H2].
  split.
  - destruct (fold_max_in r x) as [E|E]; [left; symmetry; exact E|right; exact E].
  - intros y [<-|Hy]; [exact H1|apply H2, Hy].
Qed.

Lemma np_max_some times : times <> [] -> exists mx, np_max times = Some mx.
Proof. destruct times; [congruence|]. intros _. eexists; reflexivity. Qed.

Lemma argwhere_first_from_spec (p : Q -> bool) l k j :
  argwhere_first_from k (map p l) = Some j ->
  (k <= j)%nat /\ (exists x, nth_error l (j - k) = Some x /\ p x = true) /\
  (forall j' y, (j' < j - k)%nat -> nth_error l j' = Some y -> p y = false).
Proof.
  revert k. induction l as [|x r IH]; intros k H; simpl in H; [discriminate|].
  destruct (p x) eqn:Ep.
  - injection H as <-. rewrite Nat.sub_diag. split; [lia|].
    split; [exists x; split; [reflexivity|exact Ep]|intros j' y Hj'; lia].
  - destruct (IH (S k) H) as (Hk & (z & Hz & Hpz) & Hmin).
    split; [lia|]. split.
    + exists z. replace (j - k)%nat with (S (j - S k)) by lia. split; assumption.
    + intros [|j'] y Hj' Hy; simpl in Hy.
      * injection Hy as <-. exact Ep.
      * apply (Hmin j' y); [lia|exact Hy].
Qed.

Lemma argwhere_first_from_exists (p : Q -> bool) l k x :
  In x l -> p x = true -> exists j, argwhere_first_from k (map p l) = Some j.
Proof.
  revert k. induction l as [|y r IH]; intros k Hin Hp; [destruct Hin|].
  simpl. destruct (p y) eqn:E; [eexists; reflexivity|].
  destruct Hin as [<-|Hin]; [congruence|]. apply IH; assumption.
Qed.

Lemma nth_error_length_lt {A} (l : list A) i x : nth_error l i = Some x -> (i < length l)%nat.
Proof. intros H. apply nth_error_Some. congruence. Qed.

End ThresholdFacts.

Module LstsqFacts.

Lemma qsum_cons a l : qsum (a :: l) = a + qsum l.
Proof. reflexivity. Qed.

Lemma normal_eq_x_lin m b xs ys :
  length xs = length ys ->
  normal_eq_x m b xs ys ==
  m * qsum (map (fun x => x * x) xs) + b * qsum (map (fun x => x * 1) xs)
  - qsum (map (fun p => fst p * snd p) (combine xs ys)).
Proof.
  unfold normal_eq_x, residual.
  revert ys. induction xs as [|x xr IH]; intros [|y yr] Hl; simpl in Hl; try discriminate.
  - simpl. ring.
  - cbn [combine map]. rewrite !qsum_cons, IH by lia. simpl fst; simpl snd. ring.
Qed.

Lemma normal_eq_1_lin m b xs ys :
  length xs = length ys ->
  normal_eq_1 m b xs ys ==
  m * qsum (map (fun x => x * 1) xs) + b * qsum (map (fun _ => 1 * 1) xs)
  - qsum (map (fun p => 1 * snd p) (combine xs ys)).
Proof.
  unfold normal_eq_1, residual.
  revert ys. induction xs as [|x xr IH]; intros [|y yr] Hl; simpl in Hl; try discriminate.
  - simpl. ring.
  - cbn [combine map]. rewrite !qsum_cons, IH by lia. simpl fst; simpl snd. ring.
Qed.

Lemma count_pos (xs : list Q) : xs <> [] -> 0 < qsum (map (fun _ => 1 * 1) xs).
Proof.
  assert (H0 : forall l : list Q, 0 <= qsum (map (fun _ => 1 * 1) l)).
  { induction l as [|x r IH]; cbn [map]; [apply Qle_refl|]. rewrite qsum_cons. lra. }
  destruct xs as [|x r]; [congruence|]. intros _. cbn [map]. rewrite qsum_cons.
  specialize (H0 r). lra.
Qed.

Lemma sq_nonneg (a : Q) : 0 <= a * a.
Proof. nra. Qed.

Lemma sum_sq_nonneg {A} (l : list A) (f : A -> Q) : 0 <= qsum (map (fun x => f x * f x) l).
Proof.
  induction l as [|x r IH]; cbn [map]; [apply Qle_refl|]. rewrite qsum_cons.
  pose proof (sq_nonneg (f x)). lra.
Qed.

Lemma sum_sq_zero (l : list Q) (f : Q -> Q) :
  qsum (map (fun x => f x * f x) l) == 0 -> forall x, In x l -> f x == 0.
Proof.
  induction l as [|y r IH]; intros H x Hx; [destruct Hx|].
  cbn [map] in H. rewrite qsum_cons in H.
  pose proof (sq_nonneg (f y)). pose proof (sum_sq_nonneg r f).
  destruct Hx as [<-|Hx].
  - assert (Hy : f y * f y == 0) by lra.
    destruct (Qmult_integral _ _ Hy); assumption.
  - apply IH; [lra|exact Hx].
Qed.

Lemma sum_sq_expand (a s : Q) (xs : list Q) :
  qsum (map (fun x => (a * x - s) * (a * x - s)) xs) ==
  a * a * qsum (map (fun x => x * x) xs) - 2 * a * s * qsum (map (fun x => x * 1) xs)
  + s * s * qsum (map (fun _ => 1 * 1) xs).
Proof.
  induction xs as [|x r IH]; cbn [map]; [simpl; ring|].
  rewrite !qsum_cons, IH. ring.
Qed.

(** A zero Gram determinant forces all abscissae to be equal. *)
Lemma det_zero_constant (xs : list Q) :
  xs <> [] ->
  qsum (map (fun x => x * x) xs) * qsum (map (fun _ => 1 * 1) xs)
  - qsum (map (fun x => x * 1) xs) * qsum (map (fun x => x * 1) xs) == 0 ->
  forall x, In x xs ->
    x == qsum (map (fun x => x * 1) xs) / qsum (map (fun _ => 1 * 1) xs).
Proof.
  intros Hne Hdet.
  pose proof (count_pos xs Hne) as HN.
  remember (qsum (map (fun _ => 1 * 1) xs)) as N eqn:EN.
  remember (qsum (map (fun x => x * 1) xs)) as Sx eqn:ESx.
  remember (qsum (map (fun x => x * x) xs)) as Sxx eqn:ESxx.
  assert (Hz : qsum (map (fun x => (N * x - Sx) * (N * x - Sx)) xs) == 0).
  { rewrite sum_sq_expand, <- EN, <- ESx, <- ESxx.
    setoid_replace (N * N * Sxx - 2 * N * Sx * Sx + Sx * Sx * N)
      with (N * (Sxx * N - Sx * Sx)) by ring.
    rewrite Hdet. ring. }
  intros x Hx. pose proof (sum_sq_zero xs (fun x => N * x - Sx) Hz x Hx) as H.
  simpl in H. assert (HN0 : ~ N == 0) by (intros E; rewrite E in HN; discriminate).
  assert (E : N * x == Sx) by lra.
  rewrite <- E. field. exact HN0.
Qed.

Lemma sums_constant (c : Q) xs ys :
  length xs = length ys -> (forall x, In x xs -> x == c) ->
  qsum (map (fun x => x * x) xs) == c * c * qsum (map (fun _ => 1 * 1) xs) /\
  qsum (map (fun x => x * 1) xs) == c * qsum (map (fun _ => 1 * 1) xs) /\
  qsum (map (fun p => fst p * snd p) (combine xs ys))
  == c * qsum (map (fun p => 1 * snd p) (combine xs ys)).
Proof.
  revert ys. induction xs as [|x xr IH]; intros [|y yr] Hl Hc; simpl in Hl; try discriminate.
  - simpl. repeat split; ring.
  - destruct (IH yr ltac:(lia) (fun z Hz => Hc z (or_intror Hz))) as (H1 & H2 & H3).
    assert (Hx : x == c) by (apply Hc; left; reflexivity).
    cbn [combine map]. rewrite !qsum_cons, H1, H2, H3. simpl fst; simpl snd.
    rewrite Hx. repeat split; ring.
Qed.

Lemma gram_design xs :
  gram (_line_fitting_make_rhs_matrix_from_xdata xs)
  = (qsum (map (fun x => x * x) xs), qsum (map (fun x => x * 1) xs),
     qsum (map (fun _ => 1 * 1) xs)).
Proof.
  unfold gram, _line_fitting_make_rhs_matrix_from_xdata. rewrite !map_map. reflexivity.
Qed.

Lemma rhs_design xs ys :
  rhs (_line_fitting_make_rhs_matrix_from_xdata xs) ys
  = (qsum (map (fun p => fst p * snd p) (combine xs ys)),
     qsum (map (fun p => 1 * snd p) (combine xs ys))).
Proof.
  unfold rhs, _line_fitting_make_rhs_matrix_from_xdata.
  assert (E : forall (f : (Q * Q) * Q -> Q),
             map f (combine (map (fun x => (x, 1)) xs) ys)
             = map (fun p => f ((fst p, 1), snd p)) (combine xs ys)).
  { intros f. revert ys. induction xs as [|x r IH]; intros [|y yr]; simpl; try reflexivity.
    rewrite IH. reflexivity. }
  rewrite !E. reflexivity.
Qed.

(** The solution returned by [fit_line_to_data_using_lls] satisfies the
    normal equations. *)
Lemma fit_normal_equations xs ys :
  length xs = length ys -> xs <> [] ->
  exists slope intercept,
    fit_line_to_data_using_lls xs ys = Some (slope, intercept) /\
    normal_eq_x slope intercept xs ys == 0 /\ normal_eq_1 slope intercept xs ys == 0.
Proof.
  intros Hl Hne.
  pose proof (count_pos xs Hne) as HN.
  pose proof (sum_sq_nonneg xs (fun x => x)) as HSxx. cbv beta in HSxx.
  pose proof (det_zero_constant xs Hne) as Hconst.
  unfold fit_line_to_data_using_lls, lstsq.
  rewrite gram_design, rhs_design.
  unfold _line_fitting_make_rhs_matrix_from_xdata at 1.
  rewrite length_map, Hl, Nat.eqb_refl. cbn [negb].
  setoid_rewrite normal_eq_x_lin; [|exact Hl].
  setoid_rewrite normal_eq_1_lin; [|exact Hl].
  set (N := qsum (map (fun _ => 1 * 1) xs)) in *.
  set (Sx := qsum (map (fun x => x * 1) xs)) in *.
  set (Sxx := qsum (map (fun x => x * x) xs)) in *.
  set (Sxy := qsum (map (fun p => fst p * snd p) (combine xs ys))) in *.
  set (Sy := qsum (map (fun p => 1 * snd p) (combine xs ys))) in *.
  assert (HN0 : ~ N == 0) by (intros E; rewrite E in HN; discriminate).
  destruct (Qeq_bool (Sxx * N - Sx * Sx) 0) eqn:Edet; cbn [negb].
  - apply Qeq_bool_iff in Edet.
    replace (Qeq_bool (Sxx + N) 0) with false
      by (symmetry; apply not_true_iff_false; intros E; apply Qeq_bool_iff in E; lra).
    specialize (Hconst Edet).
    destruct (sums_constant (Sx / N) xs ys Hl Hconst) as (H1 & H2 & H3).
    fold N Sx Sxx Sxy Sy in H1, H2, H3.
    assert (HT : ~ (Sxx + N) == 0) by lra.
    set (c := Sx / N) in *. clearbody c Sxx Sx Sxy Sy N.
    do 2 eexists. split; [reflexivity|].
    rewrite H1 in HT |- *. rewrite H2, H3.
    split; field; repeat split; try assumption.
  - assert (Hdet : ~ (Sxx * N - Sx * Sx) == 0)
      by (intros E; apply Qeq_bool_iff in E; congruence).
    do 2 eexists. split; [reflexivity|].
    split; field; exact Hdet.
Qed.

Lemma rss_decompose m b m' b' (ps : list (Q * Q)) :
  qsum (map (fun p => residual m' b' p * residual m' b' p) ps) ==
  qsum (map (fun p => residual m b p * residual m b p) ps)
  + qsum (map (fun p => ((m' - m) * fst p + (b' - b)) * ((m' - m) * fst p + (b' - b))) ps)
  + 2 * ((m' - m) * qsum (map (fun p => fst p * residual m b p) ps)
         + (b' - b) * qsum (map (fun p => residual m b p) ps)).
Proof.
  induction ps as [|p r IH]; cbn [map]; [simpl; ring|].
  rewrite !qsum_cons, IH. unfold residual. ring.
Qed.

(** A solution of the normal equations minimises the residual sum of squares. *)
Lemma normal_equations_minimise m b xs ys :
  normal_eq_x m b xs ys == 0 -> normal_eq_1 m b xs ys == 0 ->
  forall m' b', rss m b xs ys <= rss m' b' xs ys.
Proof.
  intros Hx H1 m' b'. unfold rss.
  rewrite (rss_decompose m b m' b').
  unfold normal_eq_x, normal_eq_1 in *. rewrite Hx, H1.
  pose proof (sum_sq_nonneg (combine xs ys) (fun p => (m' - m) * fst p + (b' - b))).
  cbv beta in H. lra.
Qed.

End LstsqFacts.

Import IntegralFacts.

(** ** Cumulative trapezoidal integral *)

(** C2 (amended): on equal-length [times] and [values] of length [n >= 1],
    [cumulative_trapezoidal_integral] returns [n] values; position 0 is
    [initial], position 1 is the first trapezoid area alone (the [initial]
    value is not added to it), and every position [i >= 2] is position
    [i - 1] plus the [i]-th trapezoid area. *)
Theorem cumulative_trapezoidal_integral_recurrence times values initial :
  length times = length values -> (1 <= length times)%nat ->
  exists out,
    cumulative_trapezoidal_integral times values initial = Some out /\
    length out = length times /\
    nth 0 out 0 = initial /\
    ((2 <= length times)%nat -> nth 1 out 0 = trap_area times values 1) /\
    (forall i, (2 <= i < length times)%nat ->
       nth i out 0 = nth (i - 1) out 0 + trap_area times values i).
Proof.
  intros Hl Hn.
  assert (Hne : times <> []) by (intros ->; simpl in Hn; lia).
  assert (HA : length (trap_areas times values) = (length times - 1)%nat)
    by (apply length_trap_areas; exact Hl).
  exists (initial :: cumsum (trap_areas times values)).
  split; [apply cti_shape; assumption|].
  split; [simpl; rewrite length_cumsum, HA; lia|].
  split; [reflexivity|].
  split.
  - intros H2. change (nth 1 (initial :: cumsum (trap_areas times values)) 0)
      with (nth 0 (cumsum (trap_areas times values)) 0).
    rewrite <- (nth_trap_areas times values 1) by (auto; lia).
    destruct (trap_areas times values) as [|a r] eqn:E; [simpl in HA; lia|].
    reflexivity.
  - intros i Hi. destruct i as [|[|k]]; [lia|lia|].
    change (nth (S (S k)) (initial :: cumsum (trap_areas times values)) 0)
      with (nth (S k) (cumsum (trap_areas times values)) 0).
    replace (S (S k) - 1)%nat with (S k) by lia.
    change (nth (S k) (initial :: cumsum (trap_areas times values)) 0)
      with (nth k (cumsum (trap_areas times values)) 0).
    rewrite nth_cumsum_succ by lia.
    rewrite <- (nth_trap_areas times values (S (S k))) by (auto; lia).
    replace (S (S k) - 1)%nat with (S k) by lia. reflexivity.
Qed.

Lemma cumulative_trapezoidal_integral_recurrence_witness :
  length [0; 1; 3] = length [2; 4; 1] /\ (1 <= length [0; 1; 3])%nat /\
  exists out,
    cumulative_trapezoidal_integral [0; 1; 3] [2; 4; 1] 5 = Some out /\
    length out = length [0; 1; 3] /\
    nth 0 out 0 = 5 /\
    ((2 <= length [0; 1; 3])%nat -> nth 1 out 0 = trap_area [0; 1; 3] [2; 4; 1] 1) /\
    (forall i, (2 <= i < length [0; 1; 3])%nat ->
       nth i out 0 = nth (i - 1) out 0 + trap_area [0; 1; 3] [2; 4; 1] i).
Proof.
  split; [reflexivity|]. split; [simpl; lia|].
  apply cumulative_trapezoidal_integral_recurrence; [reflexivity | simpl; lia].
Defined.

(** C2 (counterexample): the claim that position [i] equals position [i - 1]
    plus the [i]-th trapezoid area for every [i >= 1] fails at [i = 1] as
    soon as [initial <> 0]: on [times = [0; 1]], [values = [2; 4]],
    [initial = 1] the result is [[1; 3]], not [[1; 4]]. *)
Lemma cumulative_trapezoidal_integral_initial_not_added :
  ~ (forall times values initial,
       length times = length values -> (1 <= length times)%nat ->
       exists out,
         cumulative_trapezoidal_integral times values initial = Some out /\
         length out = length times /\
         nth 0 out 0 = initial /\
         (forall i, (1 <= i < length times)%nat ->
            nth i out 0 == nth (i - 1) out 0 + trap_area times values i)).
Proof.
  intros H.
  destruct (H [0; 1] [2; 4] 1 eq_refl ltac:(simpl; lia))
    as (out & Hout & _ & _ & Hrec).
  vm_compute in Hout. injection Hout as <-.
  specialize (Hrec 1%nat ltac:(simpl; lia)).
  vm_compute in Hrec. discriminate Hrec.
Qed.

(** C8: on [times = [0; 1]], [values = [2; 4]], [initial = 0] the result is
    [[0; 3]], 3 being the trapezoid area [(1 - 0) * (2 + 4) / 2]. *)
Theorem cumulative_trapezoidal_integral_two_points :
  option_map (map Qred) (cumulative_trapezoidal_integral [0; 1] [2; 4] 0) = Some [0; 3] /\
  exists out, cumulative_trapezoidal_integral [0; 1] [2; 4] 0 = Some out /\
    Forall2 Qeq out [0; 3] /\ nth 1 out 0 == (1 - 0) * (2 + 4) / 2.
Proof.
  split; [vm_compute; reflexivity|].
  eexists; split; [vm_compute; reflexivity|].
  split; [repeat constructor|vm_compute; reflexivity].
Qed.

(** C9: on equal-length inputs of length [n >= 2], the results for two
    values [a], [b] of [initial] agree at every position [i >= 1]; each such
    position is the plain sum of the first [i] trapezoid areas. *)
Theorem cumulative_trapezoidal_integral_initial_only_at_0 times values a b :
  length times = length values -> (2 <= length times)%nat ->
  exists oa ob,
    cumulative_trapezoidal_integral times values a = Some oa /\
    cumulative_trapezoidal_integral times values b = Some ob /\
    (forall i, (1 <= i)%nat -> nth i oa 0 = nth i ob 0) /\
    (forall i, (1 <= i < length times)%nat ->
       nth i oa 0 == qsum (firstn i (trap_areas times values))).
Proof.
  intros Hl Hn.
  assert (Hne : times <> []) by (intros ->; simpl in Hn; lia).
  assert (HA : length (trap_areas times values) = (length times - 1)%nat)
    by (apply length_trap_areas; exact Hl).
  exists (a :: cumsum (trap_areas times values)), (b :: cumsum (trap_areas times values)).
  split; [apply cti_shape; assumption|].
  split; [apply cti_shape; assumption|].
  split.
  - intros [|i] Hi; [lia|reflexivity].
  - intros [|i] Hi; [lia|].
    change (nth (S i) (a :: cumsum (trap_areas times values)) 0)
      with (nth i (cumsum (trap_areas times values)) 0).
    apply nth_cumsum_sum. lia.
Qed.

Lemma cumulative_trapezoidal_integral_initial_only_at_0_witness :
  length [0; 1; 3] = length [2; 4; 1] /\ (2 <= length [0; 1; 3])%nat /\
  exists oa ob,
    cumulative_trapezoidal_integral [0; 1; 3] [2; 4; 1] 7 = Some oa /\
    cumulative_trapezoidal_integral [0; 1; 3] [2; 4; 1] (-2) = Some ob /\
    (forall i, (1 <= i)%nat -> nth i oa 0 = nth i ob 0) /\
    (forall i, (1 <= i < length [0; 1; 3])%nat ->
       nth i oa 0 == qsum (firstn i (trap_areas [0; 1; 3] [2; 4; 1]))).
Proof.
  split; [reflexivity|]. split; [simpl; lia|].
  apply cumulative_trapezoidal_integral_initial_only_at_0; [reflexivity | simpl; lia].
Defined.

Import ThresholdFacts.

(** ** Threshold locator *)

Lemma get_index_from_threshold_found times t :
  times <> [] -> (exists x, In x times /\ t <= x) ->
  exists i x,
    get_index_from_threshold times t = Some (Z.of_nat i) /\
    nth_error times i = Some x /\ t <= x /\
    (forall j y, (j < i)%nat -> nth_error times j = Some y -> y < t).
Proof.
  intros Hne (x & Hx & Htx).
  destruct (np_max_some times Hne) as [mx Hmx].
  destruct (np_max_spec times mx Hmx) as [_ Hle].
  unfold get_index_from_threshold. rewrite Hmx.
  replace (Qlt_bool mx t) with false
    by (symmetry; apply Qlt_bool_false; apply (Qle_trans _ _ _ Htx (Hle x Hx))).
  unfold argwhere_first.
  destruct (argwhere_first_from_exists (fun y => Qle_bool t y) times 0 x Hx
              (proj2 (Qle_bool_iff _ _) Htx)) as [j Hj].
  rewrite Hj.
  destruct (argwhere_first_from_spec _ _ _ _ Hj) as (_ & (z & Hz & Hpz) & Hmin).
  rewrite Nat.sub_0_r in Hz, Hmin.
  exists j, z. split; [reflexivity|]. split; [exact Hz|]. split; [apply Qle_bool_iff, Hpz|].
  intros j' y Hj' Hy. specialize (Hmin j' y Hj' Hy).
  apply Qnot_le_lt. intros Hty. apply Qle_bool_iff in Hty. congruence.
Qed.

Lemma get_index_from_threshold_beyond times t :
  times <> [] -> (forall x, In x times -> x < t) ->
  get_index_from_threshold times t = Some (-1)%Z.
Proof.
  intros Hne Hlt.
  destruct (np_max_some times Hne) as [mx Hmx].
  destruct (np_max_spec times mx Hmx) as [Hin _].
  unfold get_index_from_threshold. rewrite Hmx.
  replace (Qlt_bool mx t) with true by (symmetry; apply Qlt_bool_iff, Hlt, Hin).
  reflexivity.
Qed.

(** C4: on a non-empty [times] (ascending or not), when some element is
    [>= t_thresh] the result is the smallest index [i] with
    [times[i] >= t_thresh]; when [t_thresh] exceeds every element it is [-1]. *)
Theorem get_index_from_threshold_spec times t_thresh :
  times <> [] ->
  ((exists x, In x times /\ t_thresh <= x) ->
   exists i x,
     get_index_from_threshold times t_thresh = Some (Z.of_nat i) /\
     nth_error times i = Some x /\ t_thresh <= x /\
     (forall j y, (j < i)%nat -> nth_error times j = Some y -> y < t_thresh)) /\
  ((forall x, In x times -> x < t_thresh) ->
   get_index_from_threshold times t_thresh = Some (-1)%Z).
Proof.
  intros Hne. split.
  - apply get_index_from_threshold_found, Hne.
  - apply get_index_from_threshold_beyond, Hne.
Qed.

(** The two examples of the contract: [[0;1;2;3]] with threshold [1.5]
    gives [2]; [[0;1;2]] with threshold [5] gives [-1]. *)
Lemma get_index_from_threshold_spec_witness :
  get_index_from_threshold [0; 1; 2; 3] (3 # 2) = Some 2%Z /\
  get_index_from_threshold [0; 1; 2] 5 = Some (-1)%Z /\
  ([0; 1; 2; 3] <> [] /\
   ((exists x, In x [0; 1; 2; 3] /\ (3 # 2) <= x) ->
    exists i x,
      get_index_from_threshold [0; 1; 2; 3] (3 # 2) = Some (Z.of_nat i) /\
      nth_error [0; 1; 2; 3] i = Some x /\ (3 # 2) <= x /\
      (forall j y, (j < i)%nat -> nth_error [0; 1; 2; 3] j = Some y -> y < (3 # 2))) /\
   ((forall x, In x [0; 1; 2; 3] -> x < (3 # 2)) ->
    get_index_from_threshold [0; 1; 2; 3] (3 # 2) = Some (-1)%Z)).
Proof.
  split; [vm_compute; reflexivity|].
  split; [vm_compute; reflexivity|].
  split; [discriminate|].
  apply get_index_from_threshold_spec. discriminate.
Defined.

(** C10: for a non-empty [times] with maximum [mx]: if [t_thresh <= mx]
    some element is [>= t_thresh], so the [argwhere(...)[0, 0]] access is
    in bounds and the result is an index in [[0, length times)]; if
    [t_thresh > mx] the result is [-1]. *)
Theorem get_index_from_threshold_in_bounds times t_thresh mx :
  np_max times = Some mx ->
  (t_thresh <= mx ->
   (exists x, In x times /\ t_thresh <= x) /\
   exists i, get_index_from_threshold times t_thresh = Some (Z.of_nat i) /\
             (i < length times)%nat) /\
  (mx < t_thresh -> get_index_from_threshold times t_thresh = Some (-1)%Z).
Proof.
  intros Hmx.
  destruct (np_max_spec times mx Hmx) as [Hin Hle].
  assert (Hne : times <> []) by (intros ->; destruct Hin).
  split.
  - intros Ht.
    assert (Hex : exists x, In x times /\ t_thresh <= x) by (exists mx; split; assumption).
    split; [exact Hex|].
    destruct (get_index_from_threshold_found times t_thresh Hne Hex) as (i & x & Hi & Hx & _).
    exists i. split; [exact Hi|]. apply (nth_error_length_lt _ _ _ Hx).
  - intros Ht. unfold get_index_from_threshold. rewrite Hmx.
    replace (Qlt_bool mx t_thresh) with true by (symmetry; apply Qlt_bool_iff, Ht).
    reflexivity.
Qed.

Lemma get_index_from_threshold_in_bounds_witness :
  np_max [0; 1; 2; 3] = Some 3 /\
  ((3 # 2) <= 3 ->
   (exists x, In x [0; 1; 2; 3] /\ (3 # 2) <= x) /\
   exists i, get_index_from_threshold [0; 1; 2; 3] (3 # 2) = Some (Z.of_nat i) /\
             (i < length [0; 1; 2; 3])%nat) /\
  (3 < (3 # 2) -> get_index_from_threshold [0; 1; 2; 3] (3 # 2) = Some (-1)%Z).
Proof.
  split; [vm_compute; reflexivity|].
  apply get_index_from_threshold_in_bounds. vm_compute. reflexivity.
Defined.

(** ** Method transforms *)

(** C3: each transform equals the method table: Patlak with
    [x = cumulative_integral(times, input) / input] and [y = region / input];
    Logan with [x = cumulative_integral(times, input) / region] and
    [y = cumulative_integral(times, region) / region]; alternative Logan
    with [x = cumulative_integral(times, input) / region] and
    [y = cumulative_integral(times, region) / input]; both sliced from the
    threshold index and passed to the line fit. *)
Theorem method_transforms_follow_table input_values region_values times t_thresh :
  patlak_analysis input_values region_values times t_thresh
  = transform_from_table patlak_table_coords input_values region_values times t_thresh /\
  logan_analysis input_values region_values times t_thresh
  = transform_from_table logan_table_coords input_values region_values times t_thresh /\
  alternative_logan_analysis input_values region_values times t_thresh
  = transform_from_table alt_logan_table_coords input_values region_values times t_thresh.
Proof.
  unfold transform_from_table, patlak_table_coords, logan_table_coords,
    alt_logan_table_coords, cumulative_integral, elementwise_div.
  unfold patlak_analysis, logan_analysis, alternative_logan_analysis, calculate_patlak_x.
  destruct (get_index_from_threshold times t_thresh) as [idx|]; [|repeat split].
  destruct (cumulative_trapezoidal_integral times input_values 0) as [ci|];
  destruct (cumulative_trapezoidal_integral times region_values 0) as [cr|];
  repeat split;
  repeat match goal with
         | |- context [match ?m with Some _ => _ | None => _ end] => destruct m
         end; reflexivity.
Qed.

(** ** Dispatcher *)

(** C5: [get_graphical_analysis_method] returns [patlak_analysis],
    [logan_analysis] and [alternative_logan_analysis] for ["patlak"],
    ["logan"] and ["alt_logan"], and for every other name raises a
    [ValueError] whose message ends with that name. *)
Theorem get_graphical_analysis_method_names :
  get_graphical_analysis_method "patlak" = inl patlak_analysis /\
  get_graphical_analysis_method "logan" = inl logan_analysis /\
  get_graphical_analysis_method "alt_logan" = inl alternative_logan_analysis /\
  (forall method_name,
     method_name <> "patlak"%string -> method_name <> "logan"%string ->
     method_name <> "alt_logan"%string ->
     exists prefix,
       get_graphical_analysis_method method_name
       = inr (ValueError (prefix ++ method_name)%string)).
Proof.
  split; [reflexivity|]. split; [reflexivity|]. split; [reflexivity|].
  intros method_name H1 H2 H3. unfold get_graphical_analysis_method.
  destruct (String.eqb_spec method_name "patlak") as [|_]; [congruence|].
  destruct (String.eqb_spec method_name "logan") as [|_]; [congruence|].
  destruct (String.eqb_spec method_name "alt_logan") as [|_]; [congruence|].
  eexists. reflexivity.
Qed.

Lemma get_graphical_analysis_method_names_witness :
  exists prefix,
    get_graphical_analysis_method "bogus" = inr (ValueError (prefix ++ "bogus")%string).
Proof.
  destruct get_graphical_analysis_method_names as (_ & _ & _ & H).
  apply H; discriminate.
Defined.

(** C6: applying the function returned for a valid name gives exactly the
    result of calling the matching analysis function on the same inputs. *)
Theorem get_graphical_analysis_method_pass_through method_name f
    input_values region_values times t_thresh :
  get_graphical_analysis_method method_name = inl f ->
  (method_name = "patlak"%string /\
   f input_values region_values times t_thresh
   = patlak_analysis input_values region_values times t_thresh) \/
  (method_name = "logan"%string /\
   f input_values region_values times t_thresh
   = logan_analysis input_values region_values times t_thresh) \/
  (method_name = "alt_logan"%string /\
   f input_values region_values times t_thresh
   = alternative_logan_analysis input_values region_values times t_thresh).
Proof.
  unfold get_graphical_analysis_method.
  destruct (String.eqb_spec method_name "patlak") as [->|_].
  { intros H. injection H as <-. left. split; reflexivity. }
  destruct (String.eqb_spec method_name "logan") as [->|_].
  { intros H. injection H as <-. right; left. split; reflexivity. }
  destruct (String.eqb_spec method_name "alt_logan") as [->|_].
  { intros H. injection H as <-. right; right. split; reflexivity. }
  discriminate.
Qed.

Lemma get_graphical_analysis_method_pass_through_witness :
  get_graphical_analysis_method "patlak" = inl patlak_analysis /\
  (("patlak"%string = "patlak"%string /\
   patlak_analysis [1; 2; 3] [1; 1; 1] [0; 1; 2] 1
   = patlak_analysis [1; 2; 3] [1; 1; 1] [0; 1; 2] 1) \/
  ("patlak"%string = "logan"%string /\
   patlak_analysis [1; 2; 3] [1; 1; 1] [0; 1; 2] 1
   = logan_analysis [1; 2; 3] [1; 1; 1] [0; 1; 2] 1) \/
  ("patlak"%string = "alt_logan"%string /\
   patlak_analysis [1; 2; 3] [1; 1; 1] [0; 1; 2] 1
   = alternative_logan_analysis [1; 2; 3] [1; 1; 1] [0; 1; 2] 1)).
Proof.
  split; [reflexivity|].
  apply get_graphical_analysis_method_pass_through. reflexivity.
Defined.

(** ** The sentinel [-1] reaching the transforms *)

(** C1 (defect): with [times = [0; 1; 2]], [input = [1; 2; 3]],
    [region = [1; 1; 1]] and a threshold [5] beyond every sample time, the
    threshold index is [-1], the slice [x[-1:]] is the one-element tail,
    and none of the three transforms fails: each returns the fit of a line
    through the last sample alone (Patlak: the fit of [x = [4/3]],
    [y = [1/3]]). *)
Theorem threshold_sentinel_fits_last_sample :
  get_index_from_threshold [0; 1; 2] 5 = Some (-1)%Z /\
  option_map (map Qred) (calculate_patlak_x [0; 1; 2] [1; 2; 3]) = Some [0; 3 # 4; 4 # 3] /\
  option_map (fun x => map Qred (py_slice_from x (-1)))
    (calculate_patlak_x [0; 1; 2] [1; 2; 3]) = Some [4 # 3] /\
  option_map qred_pair (patlak_analysis [1; 2; 3] [1; 1; 1] [0; 1; 2] 5)
  = option_map qred_pair (fit_line_to_data_using_lls [4 # 3] [1 # 3]) /\
  option_map qred_pair (patlak_analysis [1; 2; 3] [1; 1; 1] [0; 1; 2] 5)
  = Some (4 # 25, 3 # 25) /\
  option_map qred_pair (logan_analysis [1; 2; 3] [1; 1; 1] [0; 1; 2] 5)
  = Some (8 # 17, 2 # 17) /\
  option_map qred_pair (alternative_logan_analysis [1; 2; 3] [1; 1; 1] [0; 1; 2] 5)
  = Some (8 # 51, 2 # 51).
Proof.
  repeat split; vm_compute; reflexivity.
Qed.

Import LstsqFacts.

(** ** Least-squares line fit *)

(** C7: for equal-length [xdata], [ydata] with at least two points, the
    design matrix has [xdata] as first column and ones as second column, and
    the returned [(slope, intercept)] solves the normal equations of that
    system, hence minimises the residual sum of squares. *)
Theorem fit_line_to_data_using_lls_least_squares xdata ydata :
  length xdata = length ydata -> (2 <= length xdata)%nat ->
  map fst (_line_fitting_make_rhs_matrix_from_xdata xdata) = xdata /\
  map snd (_line_fitting_make_rhs_matrix_from_xdata xdata) = repeat 1 (length xdata) /\
  exists slope intercept,
    fit_line_to_data_using_lls xdata ydata = Some (slope, intercept) /\
    normal_eq_x slope intercept xdata ydata == 0 /\
    normal_eq_1 slope intercept xdata ydata == 0 /\
    (forall m b, rss slope intercept xdata ydata <= rss m b xdata ydata).
Proof.
  intros Hl Hn.
  split; [unfold _line_fitting_make_rhs_matrix_from_xdata; rewrite map_map; apply map_id|].
  split.
  { unfold _line_fitting_make_rhs_matrix_from_xdata. rewrite map_map.
    induction xdata as [|x r IH]; [reflexivity|]. simpl. f_equal.
    clear. induction r as [|y r IH]; [reflexivity|]. simpl. f_equal. exact IH. }
  assert (Hne : xdata <> []) by (intros ->; simpl in Hn; lia).
  destruct (fit_normal_equations xdata ydata Hl Hne) as (m & b & Hfit & Hx & H1).
  exists m, b. split; [exact Hfit|]. split; [exact Hx|]. split; [exact H1|].
  apply normal_equations_minimise; assumption.
Qed.

(** On the perfectly linear data [[0;1;2;3]], [[1;3;5;7]] the fit is
    [slope = 2], [intercept = 1]. *)
Lemma fit_line_to_data_using_lls_least_squares_witness :
  option_map qred_pair (fit_line_to_data_using_lls [0; 1; 2; 3] [1; 3; 5; 7]) = Some (2, 1) /\
  length [0; 1; 2; 3] = length [1; 3; 5; 7] /\ (2 <= length [0; 1; 2; 3])%nat /\
  (map fst (_line_fitting_make_rhs_matrix_from_xdata [0; 1; 2; 3]) = [0; 1; 2; 3] /\
   map snd (_line_fitting_make_rhs_matrix_from_xdata [0; 1; 2; 3]) = repeat 1 (length [0; 1; 2; 3]) /\
   exists slope intercept,
     fit_line_to_data_using_lls [0; 1; 2; 3] [1; 3; 5; 7] = Some (slope, intercept) /\
     normal_eq_x slope intercept [0; 1; 2; 3] [1; 3; 5; 7] == 0 /\
     normal_eq_1 slope intercept [0; 1; 2; 3] [1; 3; 5; 7] == 0 /\
     (forall m b, rss slope intercept [0; 1; 2; 3] [1; 3; 5; 7] <= rss m b [0; 1; 2; 3] [1; 3; 5; 7])).
Proof.
  split; [vm_compute; reflexivity|].
  split; [reflexivity|]. split; [simpl; lia|].
  apply fit_line_to_data_using_lls_least_squares; [reflexivity | simpl; lia].
Defined.

(** ** Image-derived input function *)

Import Idif.

Module IdifFacts.

Lemma fold_fadd_nums qs : fold_right fadd (Num 0) (map Num qs) = Num (qsum qs).
Proof. induction qs as [|q r IH]; [reflexivity|]. simpl. rewrite IH. reflexivity. Qed.

Lemma np_mean_nums qs :
  qs <> [] -> np_mean (map Num qs) = Num (qsum qs / inject_Z (Z.of_nat (length qs))).
Proof.
  intros Hne. destruct qs as [|q r]; [congruence|].
  unfold np_mean. cbn [map]. rewrite <- (map_cons Num q r), fold_fadd_nums, length_map.
  reflexivity.
Qed.

Lemma fold_fadd_nan xs : In NaN xs -> fold_right fadd (Num 0) xs = NaN.
Proof.
  induction xs as [|x r IH]; intros H; [destruct H|].
  destruct H as [->|H]; simpl; [reflexivity|]. rewrite IH by exact H. destruct x; reflexivity.
Qed.

Lemma np_mean_nan xs : In NaN xs -> np_mean xs = NaN.
Proof.
  intros H. unfold np_mean. destruct xs as [|x r]; [reflexivity|].
  rewrite fold_fadd_nan by exact H. reflexivity.
Qed.

Lemma slice_start_nonneg len t :
  (0 <= t)%Z -> slice_start len t = Nat.min (Z.to_nat t) len.
Proof.
  intros H. unfold slice_start. destruct (Z.ltb_spec t 0); [lia|reflexivity].
Qed.

Lemma py_slice_range {A} (l : list A) s e :
  (0 <= s)%Z -> (s <= e)%Z -> (e < Z.of_nat (length l))%Z ->
  py_slice l s (e + 1) = firstn (Z.to_nat (e - s + 1)) (skipn (Z.to_nat s) l).
Proof.
  intros H0 H1 H2. unfold py_slice.
  rewrite !slice_start_nonneg by lia.
  replace (Nat.min (Z.to_nat s) (length l)) with (Z.to_nat s) by lia.
  replace (Nat.min (Z.to_nat (e + 1)) (length l)) with (Z.to_nat (e + 1)) by lia.
  rewrite skipn_firstn_comm. f_equal. lia.
Qed.

Lemma py_slice_reversed {A} (l : list A) s e :
  (0 <= e)%Z -> (e < s)%Z -> py_slice l s (e + 1) = [].
Proof.
  intros H0 H1. unfold py_slice.
  rewrite !slice_start_nonneg by lia.
  apply skipn_all2. rewrite length_firstn. lia.
Qed.

Lemma in_firstn_in {A} n (l : list A) x : In x (firstn n l) -> In x l.
Proof. intros H. rewrite <- (firstn_skipn n l). apply in_or_app. left. exact H. Qed.

Lemma in_skipn_in {A} n (l : list A) x : In x (skipn n l) -> In x l.
Proof. intros H. rewrite <- (firstn_skipn n l). apply in_or_app. right. exact H. Qed.

Lemma nth_map_num i (f : list Q) : (i < length f)%nat -> nth i (map Num f) NaN = Num (nth i f 0).
Proof.
  intros H. rewrite (nth_indep _ NaN (Num 0)) by (rewrite length_map; exact H).
  apply map_nth.
Qed.



Lemma map_seq_nth2 (h : fval -> fval -> fval) (f g : list fval) :
  length f = length g ->
  map (fun r => h (nth r f NaN) (nth r g NaN)) (seq 0 (length f))
  = map (fun p => h (fst p) (snd p)) (combine f g).
Proof.
  revert g. induction f as [|x f IH]; intros [|y g] H; try discriminate; [reflexivity|].
  simpl length. rewrite <- cons_seq, <- seq_shift, map_cons, map_map. simpl.
  f_equal. apply IH. simpl in H. lia.
Qed.

Lemma bidx_lt n i : (i < n)%nat -> bidx n i = i.
Proof. intros H. unfold bidx. destruct (Nat.eqb_spec n 1); lia. Qed.

Lemma bdim_same n : bdim n n = Some n.
Proof. unfold bdim. rewrite Nat.eqb_refl. reflexivity. Qed.

Lemma div_mod3 (W D r : nat) :
  W <> 0%nat -> D <> 0%nat -> (((r / (W * D)) * W + (r / D) mod W) * D + r mod D = r)%nat.
Proof.
  intros HW HD. rewrite (Nat.mul_comm W D), <- Nat.Div0.div_div.
  pose proof (Nat.div_mod_eq (r / D) W) as E1. pose proof (Nat.div_mod_eq r D) as E2.
  rewrite (Nat.mul_comm (r / D / W) W), <- E1, Nat.mul_comm. lia.
Qed.

Lemma apply_threshold_binary_mask_same_shape_eq t h w d frames mask :
  length mask = (h * w * d)%nat -> (forall f, In f frames -> length f = (h * w * d)%nat) ->
  apply_threshold_binary_mask_to_4d_pet (mk_pet4d (t, (h, w, d)) frames) (mk_img3 (h, w, d) mask)
  = Some (mk_pet4d (t, (h, w, d))
            (map (fun f => map (fun p => fmul (fst p) (snd p)) (combine f mask)) frames)).
Proof.
  intros Hm Hf. unfold apply_threshold_binary_mask_to_4d_pet. cbn [pet_shape img_shape img_vox pet_frames].
  rewrite !bdim_same. f_equal. f_equal. apply map_ext_in. intros f Hin.
  rewrite <- (map_seq_nth2 fmul f mask) by (rewrite Hm, (Hf f Hin); reflexivity).
  rewrite (Hf f Hin). apply map_ext_in. intros r Hr. apply in_seq in Hr.
  assert (Hw : w <> 0%nat) by (intros ->; rewrite Nat.mul_0_r, Nat.mul_0_l in Hr; lia).
  assert (Hd : d <> 0%nat) by (intros ->; rewrite Nat.mul_0_r in Hr; lia).
  assert (H1 : (r / (w * d) < h)%nat)
    by (apply Nat.Div0.div_lt_upper_bound; rewrite Nat.mul_comm, Nat.mul_assoc; lia).
  assert (H2 : ((r / d) mod w < w)%nat) by (apply Nat.mod_upper_bound; exact Hw).
  assert (H3 : (r mod d < d)%nat) by (apply Nat.mod_upper_bound; exact Hd).
  rewrite !bidx_lt by assumption. rewrite div_mod3 by assumption. reflexivity.
Qed.

Lemma fold_masked_sum (thr : Q) (f : list Q) (vox : list fval) :
  length f = length vox ->
  exists s, fold_right fadd (Num 0)
              (map (fun p => fmul (fst p) (snd p))
                   (combine (map Num f) (map (fun v => if flt v (Num thr) then Num 0 else Num 1) vox)))
            = Num s /\
          s == qsum (map fst (filter (fun p => negb (flt (snd p) (Num thr))) (combine f vox))).
Proof.
  revert vox. induction f as [|x f IH]; intros [|v vox] H; try discriminate.
  - exists 0. split; reflexivity.
  - simpl in H. destruct (IH vox ltac:(lia)) as [s [Es Hs]].
    simpl. rewrite Es. destruct (flt v (Num thr)); simpl.
    + exists (x * 0 + s). split; [reflexivity|]. unfold qsum in *. rewrite Hs. ring.
    + exists (x * 1 + s). split; [reflexivity|]. unfold qsum in *. simpl. rewrite Hs. ring.
Qed.

Lemma qtrunc_nonneg q : 0 <= q -> inject_Z (qtrunc q) <= q /\ q < inject_Z (qtrunc q) + 1.
Proof.
  intros Hq. assert (E : qtrunc q = Qfloor q).
  { destruct q as [n d]. unfold qtrunc, Qfloor. cbn [Qnum Qden].
    apply Z.quot_div_nonneg; [|lia].
    unfold Qle in Hq. simpl in Hq. lia. }
  rewrite E. split; [apply Qfloor_le|].
  pose proof (Qlt_floor q) as H. rewrite inject_Z_plus in H. exact H.
Qed.

Lemma qtrunc_neg q : q < 0 -> inject_Z (qtrunc q) - 1 < q /\ q <= inject_Z (qtrunc q).
Proof.
  intros Hq. assert (E : qtrunc q = Qceiling q).
  { destruct q as [n d]. unfold qtrunc, Qceiling, Qfloor. cbn [Qnum Qden Qopp].
    unfold Qlt in Hq. simpl in Hq.
    rewrite <- (Z.opp_involutive n) at 1. rewrite Z.quot_opp_l by lia.
    f_equal. apply Z.quot_div_nonneg; lia. }
  rewrite E. split; [|apply Qle_ceiling].
  pose proof (Qceiling_lt q) as H. unfold Z.sub in H. rewrite inject_Z_plus in H.
  change (inject_Z (-1)) with (- (1)) in H. exact H.
Qed.

Lemma np_mean_sum xs s :
  xs <> [] -> fold_right fadd (Num 0) xs = Num s -> np_mean xs = Num (s / inject_Z (Z.of_nat (length xs))).
Proof. intros Hne Hs. destruct xs as [|x r]; [congruence|]. unfold np_mean. rewrite Hs. reflexivity. Qed.

Lemma nth_map_lt {A B} (g : A -> B) (l : list A) i d d' :
  (i < length l)%nat -> nth i (map g l) d = g (nth i l d').
Proof.
  intros H. rewrite (nth_indep _ d (g d')) by (rewrite length_map; exact H). apply map_nth.
Qed.


End IdifFacts.

Import IdifFacts.

(** X: on a PET array of [T] numeric frames of one shape, with
    [0 <= start_frame <= end_frame < T], [make_early_mean_image_from_4d_pet]
    returns an image of the frame shape whose voxel [i] is the average of
    voxel [i] over frames [start_frame .. end_frame], both ends included. *)
Theorem make_early_mean_image_from_4d_pet_average T sh (qframes : list (list Q)) s e :
  length qframes = T -> (forall f, In f qframes -> length f = size3 sh) ->
  (0 <= s)%Z -> (s <= e)%Z -> (e < Z.of_nat T)%Z ->
  make_early_mean_image_from_4d_pet (mk_pet4d (T, sh) (map (map Num) qframes)) s e
  = Some (mk_img3 sh
            (map (fun i => Num (qsum (map (fun f => nth i f 0)
                                          (firstn (Z.to_nat (e - s + 1)) (skipn (Z.to_nat s) qframes)))
                                / inject_Z (e - s + 1)))
                 (seq 0 (size3 sh)))).
Proof.
  intros HT Hf H0 H1 H2. unfold make_early_mean_image_from_4d_pet. cbn [pet_shape pet_frames fst snd].
  replace ((s <? 0)%Z || (Z.of_nat T <=? e)%Z) with false
    by (symmetry; apply orb_false_iff; split; [apply Z.ltb_ge|apply Z.leb_gt]; lia).
  rewrite py_slice_range by (rewrite ?length_map; lia).
  f_equal. f_equal. apply map_ext_in. intros i Hi. apply in_seq in Hi.
  rewrite skipn_map, firstn_map, map_map.
  assert (Hsel : forall f, In f (firstn (Z.to_nat (e - s + 1)) (skipn (Z.to_nat s) qframes)) ->
                 (i < length f)%nat).
  { intros f Hin. apply in_firstn_in, in_skipn_in in Hin. rewrite (Hf f Hin). lia. }
  rewrite (map_ext_in _ (fun f => Num (nth i f 0))
             (firstn (Z.to_nat (e - s + 1)) (skipn (Z.to_nat s) qframes)))
    by (intros f Hin; apply nth_map_num, Hsel, Hin).
  rewrite <- (map_map (fun f => nth i f 0) Num).
  assert (Hlen : length (firstn (Z.to_nat (e - s + 1)) (skipn (Z.to_nat s) qframes))
                 = Z.to_nat (e - s + 1)) by (rewrite length_firstn, length_skipn; lia).
  rewrite np_mean_nums.
  - rewrite length_map, Hlen, Z2Nat.id by lia. reflexivity.
  - intros E. apply (f_equal (@length Q)) in E. rewrite length_map, Hlen in E. simpl in E. lia.
Qed.

Lemma make_early_mean_image_from_4d_pet_average_witness :
  length [[1; 2]; [3; 4]; [5; 7]] = 3%nat /\
  (forall f, In f [[1; 2]; [3; 4]; [5; 7]] -> length f = size3 (1, 1, 2)%nat) /\
  make_early_mean_image_from_4d_pet (mk_pet4d (3, (1, 1, 2))%nat (map (map Num) [[1; 2]; [3; 4]; [5; 7]])) 1 2
  = Some (mk_img3 (1, 1, 2)%nat
            (map (fun i => Num (qsum (map (fun f => nth i f 0)
                                          (firstn (Z.to_nat (2 - 1 + 1)) (skipn (Z.to_nat 1) [[1; 2]; [3; 4]; [5; 7]])))
                                / inject_Z (2 - 1 + 1)))
                 (seq 0 (size3 (1, 1, 2)%nat)))).
Proof.
  split; [reflexivity|].
  split; [intros f Hf; simpl in Hf; repeat destruct Hf as [<-|Hf]; try reflexivity; destruct Hf|].
  apply make_early_mean_image_from_4d_pet_average; [reflexivity| |lia|lia|simpl; lia].
  intros f Hf; simpl in Hf; repeat destruct Hf as [<-|Hf]; try reflexivity; destruct Hf.
Defined.

(** X: the bounds check of [make_early_mean_image_from_4d_pet] raises
    exactly when [start_frame < 0] or [end_frame >= T]; a reversed range
    [0 <= end_frame < start_frame] passes it and gives an image of the frame
    shape in which every voxel is NaN (the mean of an empty slice). *)
Theorem make_early_mean_image_from_4d_pet_bounds pet s e :
  (make_early_mean_image_from_4d_pet pet s e = None <->
   (s < 0)%Z \/ (Z.of_nat (fst (pet_shape pet)) <= e)%Z) /\
  ((0 <= e)%Z -> (e < s)%Z -> (e < Z.of_nat (fst (pet_shape pet)))%Z ->
   make_early_mean_image_from_4d_pet pet s e
   = Some (mk_img3 (snd (pet_shape pet)) (repeat NaN (size3 (snd (pet_shape pet)))))).
Proof.
  unfold make_early_mean_image_from_4d_pet. split.
  - destruct ((s <? 0)%Z || (Z.of_nat (fst (pet_shape pet)) <=? e)%Z) eqn:E.
    + apply orb_true_iff in E. rewrite Z.ltb_lt, Z.leb_le in E. split; [intros _; exact E|reflexivity].
    + apply orb_false_iff in E. rewrite Z.ltb_ge, Z.leb_gt in E. split; [discriminate|lia].
  - intros H0 H1 H2.
    replace ((s <? 0)%Z || (Z.of_nat (fst (pet_shape pet)) <=? e)%Z) with false
      by (symmetry; apply orb_false_iff; split; [apply Z.ltb_ge|apply Z.leb_gt]; lia).
    rewrite py_slice_reversed by lia. cbn [map].
    f_equal. f_equal. generalize (size3 (snd (pet_shape pet))) as n. generalize 0%nat as k.
    intros k n. revert k. induction n as [|n IH]; intros k; [reflexivity|]. simpl. rewrite IH. reflexivity.
Qed.

Lemma make_early_mean_image_from_4d_pet_bounds_witness :
  (0 <= 0)%Z /\ (0 < 1)%Z /\ (0 < Z.of_nat (fst (pet_shape (mk_pet4d (2, (1, 1, 2))%nat [[Num 1; Num 2]; [Num 3; Num 4]]))))%Z /\
  make_early_mean_image_from_4d_pet (mk_pet4d (2, (1, 1, 2))%nat [[Num 1; Num 2]; [Num 3; Num 4]]) 1 0
  = Some (mk_img3 (1, 1, 2)%nat (repeat NaN (size3 (1, 1, 2)%nat))).
Proof.
  split; [lia|]. split; [lia|]. split; [simpl; lia|].
  apply (make_early_mean_image_from_4d_pet_bounds (mk_pet4d (2, (1, 1, 2))%nat [[Num 1; Num 2]; [Num 3; Num 4]]) 1 0);
    simpl; lia.
Defined.





(** X: a mask of the frame shape is applied to every frame of the 4-D PET
    array by an elementwise product, and the shape is kept. *)
Theorem apply_threshold_binary_mask_to_4d_pet_same_shape t h w d frames mask :
  length mask = (h * w * d)%nat -> (forall f, In f frames -> length f = (h * w * d)%nat) ->
  apply_threshold_binary_mask_to_4d_pet (mk_pet4d (t, (h, w, d)) frames) (mk_img3 (h, w, d) mask)
  = Some (mk_pet4d (t, (h, w, d))
            (map (fun f => map (fun p => fmul (fst p) (snd p)) (combine f mask)) frames)).
Proof. apply apply_threshold_binary_mask_same_shape_eq. Qed.

Lemma apply_threshold_binary_mask_to_4d_pet_same_shape_witness :
  length [Num 1; Num 0] = (1 * 1 * 2)%nat /\
  (forall f, In f [[Num 4; Num 5]; [NaN; Num 7]] -> length f = (1 * 1 * 2)%nat) /\
  apply_threshold_binary_mask_to_4d_pet (mk_pet4d (2, (1, 1, 2))%nat [[Num 4; Num 5]; [NaN; Num 7]])
                                        (mk_img3 (1, 1, 2)%nat [Num 1; Num 0])
  = Some (mk_pet4d (2, (1, 1, 2))%nat
            (map (fun f => map (fun p => fmul (fst p) (snd p)) (combine f [Num 1; Num 0]))
                 [[Num 4; Num 5]; [NaN; Num 7]])).
Proof.
  assert (Hf : forall f, In f [[Num 4; Num 5]; [NaN; Num 7]] -> length f = (1 * 1 * 2)%nat).
  { intros f Hf; simpl in Hf; repeat destruct Hf as [<-|Hf]; try reflexivity; destruct Hf. }
  split; [reflexivity|]. split; [exact Hf|].
  apply apply_threshold_binary_mask_to_4d_pet_same_shape; [reflexivity|exact Hf].
Defined.



(** X: thresholding an image, applying the mask to numeric frames of its
    shape and averaging each frame gives, per frame, the sum of the voxels
    where the image is not below the threshold (NaN voxels included)
    divided by the number of all voxels of the frame, not by the number of
    voxels in the mask. *)
Theorem threshold_mask_then_average t h w d qframes img thr :
  (0 < h * w * d)%nat -> img_shape img = (h, w, d) -> length (img_vox img) = (h * w * d)%nat ->
  (forall f, In f qframes -> length f = (h * w * d)%nat) ->
  exists tac,
    option_map average_masked_4d_pet_into_tac
      (apply_threshold_binary_mask_to_4d_pet (mk_pet4d (t, (h, w, d)) (map (map Num) qframes))
                                             (make_threshold_binary_mask img thr)) = Some tac /\
    Forall2 (fun f v => exists s, v = Num s /\
               s == qsum (map fst (filter (fun p => negb (flt (snd p) (Num thr))) (combine f (img_vox img))))
                    / inject_Z (Z.of_nat (h * w * d)))
            qframes tac.
Proof.
  intros Hn Hs Hl Hf. unfold make_threshold_binary_mask. rewrite Hs.
  rewrite apply_threshold_binary_mask_same_shape_eq.
  2: { rewrite length_map. exact Hl. }
  2: { intros f Hin. apply in_map_iff in Hin. destruct Hin as [f' [<- Hin]].
       rewrite length_map. apply Hf, Hin. }
  eexists. split; [reflexivity|]. unfold average_masked_4d_pet_into_tac. cbn [pet_frames].
  rewrite map_map. clear Hs. induction qframes as [|f r IH]; [constructor|]. cbn [map]. constructor.
  - assert (Hfl : length f = length (img_vox img)) by (rewrite Hl; apply Hf; left; reflexivity).
    destruct (fold_masked_sum thr f (img_vox img) Hfl) as [s [Es Hsum]].
    set (xs := map (fun p => fmul (fst p) (snd p))
                   (combine (map Num f) (map (fun v => if flt v (Num thr) then Num 0 else Num 1) (img_vox img)))) in *.
    assert (Hxl : length xs = (h * w * d)%nat)
      by (unfold xs; rewrite length_map, length_combine, !length_map, Hfl, Hl; lia).
    exists (s / inject_Z (Z.of_nat (h * w * d))). split.
    + rewrite (np_mean_sum xs s); [rewrite Hxl; reflexivity| |exact Es].
      intros E. rewrite E in Hxl. simpl in Hxl. lia.
    + rewrite Hsum. reflexivity.
  - apply IH. intros f' Hin. apply Hf. right. exact Hin.
Qed.

Lemma threshold_mask_then_average_witness :
  (0 < 1 * 1 * 2)%nat /\ img_shape (mk_img3 (1, 1, 2)%nat [Num 5; Num 1]) = (1, 1, 2)%nat /\
  length (img_vox (mk_img3 (1, 1, 2)%nat [Num 5; Num 1])) = (1 * 1 * 2)%nat /\
  (forall f, In f [[4; 6]; [8; 2]] -> length f = (1 * 1 * 2)%nat) /\
  exists tac,
    option_map average_masked_4d_pet_into_tac
      (apply_threshold_binary_mask_to_4d_pet (mk_pet4d (2, (1, 1, 2))%nat (map (map Num) [[4; 6]; [8; 2]]))
                                             (make_threshold_binary_mask (mk_img3 (1, 1, 2)%nat [Num 5; Num 1]) 3))
    = Some tac /\
    Forall2 (fun f v => exists s, v = Num s /\
               s == qsum (map fst (filter (fun p => negb (flt (snd p) (Num 3)))
                                          (combine f (img_vox (mk_img3 (1, 1, 2)%nat [Num 5; Num 1])))))
                    / inject_Z (Z.of_nat (1 * 1 * 2)))
            [[4; 6]; [8; 2]] tac.
Proof.
  assert (Hf : forall f, In f [[4; 6]; [8; 2]] -> length f = (1 * 1 * 2)%nat).
  { intros f Hf; simpl in Hf; repeat destruct Hf as [<-|Hf]; try reflexivity; destruct Hf. }
  split; [simpl; lia|]. split; [reflexivity|]. split; [reflexivity|]. split; [exact Hf|].
  apply threshold_mask_then_average; [simpl; lia|reflexivity|reflexivity|exact Hf].
Defined.

(** X: with start times and durations of equal length, the frame midpoints
    are [start + duration / 2] truncated toward zero: the floor for a
    nonnegative midpoint, the ceiling for a negative one. *)
Theorem get_frame_time_midpoints_truncate starts durs :
  length starts = length durs ->
  exists m, get_frame_time_midpoints starts durs = Some m /\ length m = length starts /\
    forall i, (i < length starts)%nat ->
      let x := nth i starts 0 + nth i durs 0 / 2 in
      (0 <= x -> inject_Z (nth i m 0%Z) <= x /\ x < inject_Z (nth i m 0%Z) + 1) /\
      (x < 0 -> inject_Z (nth i m 0%Z) - 1 < x /\ x <= inject_Z (nth i m 0%Z)).
Proof.
  intros Hl. unfold get_frame_time_midpoints, bcast.
  replace (Nat.eqb (length starts) (length (map (fun d => d / 2) durs))) with true
    by (rewrite length_map, Hl; symmetry; apply Nat.eqb_refl).
  assert (Hc : length (combine starts (map (fun d => d / 2) durs)) = length starts)
    by (rewrite length_combine, length_map, Hl; lia).
  eexists. split; [reflexivity|]. split; [rewrite !length_map, Hc; reflexivity|].
  intros i Hi. cbv zeta.
  rewrite (nth_map_lt _ _ i 0%Z 0) by (rewrite length_map, Hc; exact Hi).
  rewrite (nth_map_lt _ _ i 0 (0, 0)) by (rewrite Hc; exact Hi).
  rewrite combine_nth by (rewrite length_map; exact Hl).
  rewrite (nth_map_lt _ _ i 0 0) by (rewrite <- Hl; exact Hi). cbn [fst snd].
  split; [apply qtrunc_nonneg|apply qtrunc_neg].
Qed.

Lemma get_frame_time_midpoints_truncate_witness :
  length [0; 5; -3] = length [1; 3; 1] /\
  exists m, get_frame_time_midpoints [0; 5; -3] [1; 3; 1] = Some m /\ length m = length [0; 5; -3] /\
    forall i, (i < length [0; 5; -3]%Q)%nat ->
      let x := nth i [0; 5; -3] 0 + nth i [1; 3; 1] 0 / 2 in
      (0 <= x -> inject_Z (nth i m 0%Z) <= x /\ x < inject_Z (nth i m 0%Z) + 1) /\
      (x < 0 -> inject_Z (nth i m 0%Z) - 1 < x /\ x <= inject_Z (nth i m 0%Z)).
Proof.
  split; [reflexivity|]. apply get_frame_time_midpoints_truncate. reflexivity.
Defined.

Module PercentileFacts.

Lemma nums_in q xs : In q (nums xs) <-> In (Num q) xs.
Proof.
  induction xs as [|[q0|] r IH]; simpl; [tauto| |].
  - rewrite IH. split; intros [H|H]; auto; [left; congruence|left; injection H; auto].
  - rewrite IH. split; [intros H; right; exact H|intros [H|H]; [discriminate|exact H]].
Qed.

Lemma sort_in q xs : In q (QSort.sort (nums xs)) <-> In (Num q) xs.
Proof.
  rewrite <- nums_in. pose proof (QSort.Permuted_sort (nums xs)) as P.
  split; intros H; [apply (Permutation_in _ (Permutation_sym P) H)|apply (Permutation_in _ P H)].
Qed.

Lemma sort_nil xs : QSort.sort (nums xs) = [] <-> nums xs = [].
Proof.
  pose proof (Permutation_length (QSort.Permuted_sort (nums xs))) as L.
  split; intros H; [|rewrite H; reflexivity].
  rewrite H in L. apply length_zero_iff_nil. simpl in L. lia.
Qed.

Lemma Qle_bool_trans : Transitive (fun x y => is_true (Qle_bool x y)).
Proof.
  intros x y z H1 H2. unfold is_true in *. rewrite Qle_bool_iff in *. exact (Qle_trans _ _ _ H1 H2).
Qed.

Lemma sorted_sort xs : StronglySorted (fun x y => is_true (Qle_bool x y)) (QSort.sort (nums xs)).
Proof. apply QSort.StronglySorted_sort, Qle_bool_trans. Qed.

Lemma strongly_sorted_nth (l : list Q) i j :
  StronglySorted (fun x y => is_true (Qle_bool x y)) l -> (i <= j)%nat -> (j < length l)%nat ->
  nth i l 0 <= nth j l 0.
Proof.
  revert i j. induction l as [|x l IH]; intros i j HS Hij Hj; [simpl in Hj; lia|].
  apply StronglySorted_inv in HS. destruct HS as [HS HF].
  destruct i as [|i], j as [|j]; simpl.
  - apply Qle_refl.
  - simpl in Hj. rewrite Forall_forall in HF. apply Qle_bool_iff, HF, nth_In. lia.
  - lia.
  - apply IH; [exact HS|lia|simpl in Hj; lia].
Qed.

Lemma range_check q : 0 <= q -> q <= 100 -> negb (Qle_bool 0 q && Qle_bool q 100) = false.
Proof. intros H1 H2. apply Qle_bool_iff in H1, H2. rewrite H1, H2. reflexivity. Qed.

Lemma percentile_index_bounds (n : nat) q :
  (1 <= n)%nat -> 0 <= q -> q <= 100 ->
  let virtual := (inject_Z (Z.of_nat n) - 1) * q / 100 in
  let prev := Z.to_nat (Qfloor virtual) in
  (prev < n)%nat /\ 0 <= virtual - inject_Z (Z.of_nat prev) /\ virtual - inject_Z (Z.of_nat prev) < 1 /\
  0 <= virtual /\ virtual <= inject_Z (Z.of_nat n) - 1.
Proof.
  intros Hn H1 H2 virtual prev.
  assert (HN : 1 <= inject_Z (Z.of_nat n)) by (change 1 with (inject_Z 1); rewrite <- Zle_Qle; lia).
  assert (Hv : 0 <= virtual /\ virtual <= inject_Z (Z.of_nat n) - 1).
  { unfold virtual. clear -HN H1 H2. revert HN. generalize (inject_Z (Z.of_nat n)) as N. intros N HN.
    unfold Qdiv. setoid_replace (/ 100) with (1 # 100) by reflexivity. split; nra. }
  assert (Hf0 : (0 <= Qfloor virtual)%Z)
    by (change 0%Z with (Qfloor 0); apply Qfloor_resp_le, Hv).
  assert (Hfl := Qfloor_le virtual). assert (Hlt := Qlt_floor virtual).
  rewrite inject_Z_plus in Hlt.
  assert (Hfn : (Qfloor virtual < Z.of_nat n)%Z) by (rewrite Zlt_Qlt; lra).
  unfold prev. rewrite Z2Nat.id by exact Hf0.
  split; [lia|]. split; [lra|]. split; [change (inject_Z 1) with 1 in Hlt; lra|exact Hv].
Qed.

End PercentileFacts.

Import PercentileFacts.

(** X: [np.nanpercentile] raises exactly when the percentile is outside
    [[0, 100]]; inside it, the result is NaN when there is no non-NaN value,
    and otherwise a number that lies between two non-NaN values of the
    input. *)
Theorem np_nanpercentile_spec xs q :
  (np_nanpercentile xs q = None <-> q < 0 \/ 100 < q) /\
  (0 <= q -> q <= 100 -> nums xs = [] -> np_nanpercentile xs q = Some NaN) /\
  (0 <= q -> q <= 100 -> nums xs <> [] ->
   exists v lo hi, np_nanpercentile xs q = Some (Num v) /\ In (Num lo) xs /\ In (Num hi) xs /\
                   lo <= v /\ v <= hi).
Proof.
  split; [|split].
  - unfold np_nanpercentile. destruct (Qle_bool 0 q) eqn:E1, (Qle_bool q 100) eqn:E2; simpl.
    + apply Qle_bool_iff in E1, E2. destruct (QSort.sort (nums xs)); split; try discriminate; lra.
    + split; [intros _|reflexivity]. right. apply Qnot_le_lt. intros H. apply Qle_bool_iff in H. congruence.
    + split; [intros _|reflexivity]. left. apply Qnot_le_lt. intros H. apply Qle_bool_iff in H. congruence.
    + split; [intros _|reflexivity]. left. apply Qnot_le_lt. intros H. apply Qle_bool_iff in H. congruence.
  - intros H1 H2 Hn. unfold np_nanpercentile. rewrite range_check by assumption.
    apply sort_nil in Hn. rewrite Hn. reflexivity.
  - intros H1 H2 Hn. unfold np_nanpercentile. rewrite range_check by assumption.
    rewrite <- sort_nil in Hn.
    destruct (QSort.sort (nums xs)) as [|x l] eqn:E; [congruence|]. cbv zeta.
    destruct (percentile_index_bounds (length (x :: l)) q ltac:(simpl; lia) H1 H2)
      as [Hp [Hg0 [Hg1 _]]].
    set (virtual := (inject_Z (Z.of_nat (length (x :: l))) - 1) * q / 100) in *.
    set (prev := Z.to_nat (Qfloor virtual)) in *.
    set (gamma := virtual - inject_Z (Z.of_nat prev)) in *.
    set (next := Nat.min (S prev) (length (x :: l) - 1)).
    assert (Hnext : (next < length (x :: l))%nat) by (unfold next; simpl length; lia).
    set (a := nth prev (x :: l) 0). set (b := nth next (x :: l) 0).
    assert (Ha : In (Num a) xs) by (apply sort_in; rewrite E; apply nth_In, Hp).
    assert (Hb : In (Num b) xs) by (apply sort_in; rewrite E; apply nth_In, Hnext).
    exists (a + (b - a) * gamma).
    destruct (Qlt_le_dec b a) as [Hba|Hab].
    + exists b, a. split; [reflexivity|]. split; [exact Hb|]. split; [exact Ha|]. split; nra.
    + exists a, b. split; [reflexivity|]. split; [exact Ha|]. split; [exact Hb|]. split; nra.
Qed.

Lemma np_nanpercentile_spec_witness :
  (0 <= 90 /\ 90 <= 100 /\ nums [Num 4; NaN; Num 1; Num 3] <> []) /\
  exists v lo hi, np_nanpercentile [Num 4; NaN; Num 1; Num 3] 90 = Some (Num v) /\
                  In (Num lo) [Num 4; NaN; Num 1; Num 3] /\ In (Num hi) [Num 4; NaN; Num 1; Num 3] /\
                  lo <= v /\ v <= hi.
Proof.
  assert (H0 : 0 <= 90) by (vm_compute; discriminate).
  assert (H1 : 90 <= 100) by (vm_compute; discriminate).
  assert (H2 : nums [Num 4; NaN; Num 1; Num 3] <> []) by discriminate.
  split; [auto|].
  apply (proj2 (proj2 (np_nanpercentile_spec [Num 4; NaN; Num 1; Num 3] 90)) H0 H1 H2).
Defined.

(** X: over the non-NaN values, [np.nanpercentile] at 0 is the minimum and
    at 100 the maximum. *)
Theorem np_nanpercentile_min_max xs :
  nums xs <> [] ->
  (exists v m, np_nanpercentile xs 0 = Some (Num v) /\ v == m /\ In (Num m) xs /\
               forall y, In (Num y) xs -> m <= y) /\
  (exists v m, np_nanpercentile xs 100 = Some (Num v) /\ v == m /\ In (Num m) xs /\
               forall y, In (Num y) xs -> y <= m).
Proof.
  intros Hn. rewrite <- sort_nil in Hn. pose proof (sorted_sort xs) as HS.
  unfold np_nanpercentile. rewrite !range_check by (vm_compute; discriminate).
  destruct (QSort.sort (nums xs)) as [|x l] eqn:E; [congruence|]. cbv zeta.
  assert (Hmem : forall y, In (Num y) xs -> exists j, (j < length (x :: l))%nat /\ nth j (x :: l) 0 = y).
  { intros y Hy. apply sort_in in Hy. rewrite E in Hy. apply In_nth with (d := 0) in Hy.
    destruct Hy as [j [Hj Hy]]. exists j. auto. }
  split.
  - destruct (percentile_index_bounds (length (x :: l)) 0 ltac:(simpl; lia)
                (Qle_refl 0) ltac:(vm_compute; discriminate)) as [Hp [Hg0 [Hg1 [Hv0 Hv1]]]].
    set (virtual := (inject_Z (Z.of_nat (length (x :: l))) - 1) * 0 / 100) in *.
    set (prev := Z.to_nat (Qfloor virtual)) in *.
    assert (Hvirt : virtual == 0) by (unfold virtual, Qdiv; ring).
    assert (Hprev : prev = 0%nat).
    { assert (inject_Z (Z.of_nat prev) <= 0) by lra.
      destruct prev as [|k]; [reflexivity|]. exfalso.
      assert (0 < inject_Z (Z.of_nat (S k))) by (change 0 with (inject_Z 0); rewrite <- Zlt_Qlt; lia).
      lra. }
    eexists. exists x. split; [reflexivity|]. split.
    + rewrite Hprev. simpl nth. cbn [Z.of_nat inject_Z]. rewrite Hvirt. ring.
    + split; [apply sort_in; rewrite E; left; reflexivity|].
      intros y Hy. destruct (Hmem y Hy) as [j [Hj <-]].
      apply (strongly_sorted_nth (x :: l) 0 j HS); lia.
  - destruct (percentile_index_bounds (length (x :: l)) 100 ltac:(simpl; lia)
                ltac:(vm_compute; discriminate) (Qle_refl 100)) as [Hp [Hg0 [Hg1 [Hv0 Hv1]]]].
    set (N := length (x :: l)) in *.
    set (virtual := (inject_Z (Z.of_nat N) - 1) * 100 / 100) in *.
    set (prev := Z.to_nat (Qfloor virtual)) in *.
    assert (Hvirt : virtual == inject_Z (Z.of_nat N) - 1) by (unfold virtual, Qdiv; field).
    assert (Hprev : prev = (N - 1)%nat).
    { assert (Hlo : inject_Z (Z.of_nat N) - 2 < inject_Z (Z.of_nat prev)) by lra.
      assert (Hlo' : (Z.of_nat N - 2 < Z.of_nat prev)%Z).
      { rewrite Zlt_Qlt. unfold Z.sub. rewrite inject_Z_plus. exact Hlo. }
      lia. }
    assert (Hnext : Nat.min (S prev) (N - 1) = (N - 1)%nat) by lia.
    assert (HN : (1 <= N)%nat) by (unfold N; simpl; lia).
    eexists. exists (nth (N - 1) (x :: l) 0). split; [reflexivity|]. split.
    + rewrite Hnext, Hprev.
      assert (Hg : virtual - inject_Z (Z.of_nat (N - 1)) == 0).
      { rewrite Hvirt. rewrite Nat2Z.inj_sub by lia. unfold Z.sub. rewrite inject_Z_plus. simpl. ring. }
      rewrite Hg. ring.
    + split; [apply sort_in; rewrite E; apply nth_In; lia|].
      intros y Hy. destruct (Hmem y Hy) as [j [Hj <-]].
      apply (strongly_sorted_nth (x :: l) j (N - 1) HS); unfold N in *; lia.
Qed.

Lemma np_nanpercentile_min_max_witness :
  nums [Num 4; NaN; Num 1; Num 3] <> [] /\
  (exists v m, np_nanpercentile [Num 4; NaN; Num 1; Num 3] 0 = Some (Num v) /\ v == m /\
               In (Num m) [Num 4; NaN; Num 1; Num 3] /\
               forall y, In (Num y) [Num 4; NaN; Num 1; Num 3] -> m <= y) /\
  (exists v m, np_nanpercentile [Num 4; NaN; Num 1; Num 3] 100 = Some (Num v) /\ v == m /\
               In (Num m) [Num 4; NaN; Num 1; Num 3] /\
               forall y, In (Num y) [Num 4; NaN; Num 1; Num 3] -> y <= m).
Proof.
  split; [discriminate|]. apply np_nanpercentile_min_max. discriminate.
Defined.

Module IdifRunFacts.

Lemma omap_some {A B} (f : A -> option B) (l : list A) :
  (forall x, In x l -> exists y, f x = Some y) ->
  exists ys, omap f l = Some ys /\ length ys = length l.
Proof.
  induction l as [|x r IH]; intros H; [exists []; split; reflexivity|].
  destruct (H x (or_introl eq_refl)) as [y Hy].
  destruct IH as [ys [Hys Hl]]; [intros z Hz; apply H; right; exact Hz|].
  exists (y :: ys). simpl. rewrite Hy, Hys. split; [reflexivity|simpl; congruence].
Qed.

Lemma omap_const {A B} (f : A -> option B) (l : list A) (c : B) ys :
  (forall x, In x l -> f x = None \/ f x = Some c) -> omap f l = Some ys -> ys = repeat c (length l).
Proof.
  revert ys. induction l as [|x r IH]; intros ys H E; simpl in E.
  - injection E as <-. reflexivity.
  - destruct (H x (or_introl eq_refl)) as [Hx|Hx]; rewrite Hx in E; [discriminate|].
    destruct (omap f r) as [ys'|] eqn:Er; [|discriminate]. injection E as <-.
    simpl. f_equal. apply IH; [intros z Hz; apply H; right; exact Hz|reflexivity].
Qed.

Lemma np_argmax_none xs : np_argmax xs = None -> xs = [].
Proof. destruct xs; [reflexivity|discriminate]. Qed.

Lemma nanpercentile_in_range xs q : 0 <= q -> q <= 100 -> exists v, np_nanpercentile xs q = Some v.
Proof.
  intros H1 H2. unfold np_nanpercentile. rewrite range_check by assumption.
  destruct (QSort.sort (nums xs)); eexists; reflexivity.
Qed.

Lemma nanpercentile_out_of_range xs q : q < 0 \/ 100 < q -> np_nanpercentile xs q = None.
Proof.
  intros H. unfold np_nanpercentile.
  replace (Qle_bool 0 q && Qle_bool q 100) with false; [reflexivity|].
  symmetry. apply andb_false_iff. destruct H as [H|H]; [left|right];
    apply not_true_iff_false; rewrite Qle_bool_iff; apply Qlt_not_le, H.
Qed.

Lemma nanpercentile_all_nan xs q : nums xs = [] -> np_nanpercentile xs q = None \/ np_nanpercentile xs q = Some NaN.
Proof.
  intros H. unfold np_nanpercentile. rewrite (proj2 (sort_nil xs) H).
  destruct (negb _); [left|right]; reflexivity.
Qed.

Lemma idif_frame_averages_length nk : length (idif_frame_averages nk) = Nat.min 10 (nk_t nk).
Proof. unfold idif_frame_averages. rewrite length_map, length_seq. reflexivity. Qed.

Lemma nums_map_nan {A} (g : A -> fval) (l : list A) : (forall x, In x l -> g x = NaN) -> nums (map g l) = [].
Proof.
  induction l as [|x r IH]; intros H; [reflexivity|]. simpl. rewrite (H x (or_introl eq_refl)).
  apply IH. intros z Hz. apply H. right. exact Hz.
Qed.

End IdifRunFacts.

Import IdifRunFacts.

(** X: [get_idif_from_4d_pet_necktangle] raises on a necktangle without
    frames ([np.argmax] of an empty sequence); with at least one frame it
    raises exactly when the percentile is outside [[0, 100]] or when the
    frame times have neither one entry per frame nor a single entry (the
    assignment [tac[0, :] = frame_midpoint_times] cannot broadcast). *)
Theorem get_idif_from_4d_pet_necktangle_errors nk p times :
  (nk_t nk = 0%nat -> get_idif_from_4d_pet_necktangle nk p times = None) /\
  ((1 <= nk_t nk)%nat ->
   (get_idif_from_4d_pet_necktangle nk p times = None <->
    (p < 0 \/ 100 < p) \/ (length times <> nk_t nk /\ length times <> 1%nat))).
Proof.
  split.
  - intros H0. unfold get_idif_from_4d_pet_necktangle, idif_frame_averages. rewrite H0. reflexivity.
  - intros H1. unfold get_idif_from_4d_pet_necktangle.
    destruct (np_argmax (idif_frame_averages nk)) as [b|] eqn:Ea.
    2: { apply np_argmax_none in Ea. apply (f_equal (@length fval)) in Ea.
         rewrite idif_frame_averages_length in Ea. cbn [length] in Ea. lia. }
    destruct (nanpercentile_in_range
                (map np_nanmean (map (fun s => py_slice s (Z.of_nat b - 1) (Z.of_nat b + 2)) (nk_series nk))) 90
                ltac:(vm_compute; discriminate) ltac:(vm_compute; discriminate)) as [thr Ethr].
    rewrite Ethr.
    set (F := fun frame : nat =>
                np_nanpercentile
                  (map (fun p0 => if feq (fst p0) (Num 1) then snd p0 else NaN)
                       (combine (map (fun a => if flt thr a then Num 1 else NaN)
                                     (map np_nanmean (map (fun s => py_slice s (Z.of_nat b - 1) (Z.of_nat b + 2))
                                                          (nk_series nk))))
                                (map (fun s => nth frame s NaN) (nk_series nk)))) p).
    assert (Hrows : (p < 0 \/ 100 < p) -> omap F (seq 0 (nk_t nk)) = None).
    { intros Hp. destruct (nk_t nk) as [|T]; [lia|]. simpl. unfold F at 1.
      rewrite nanpercentile_out_of_range by exact Hp. reflexivity. }
    assert (Hrows' : 0 <= p -> p <= 100 -> exists ys, omap F (seq 0 (nk_t nk)) = Some ys).
    { intros Hp0 Hp1. destruct (omap_some F (seq 0 (nk_t nk))) as [ys [Hys _]].
      - intros x _. apply nanpercentile_in_range; assumption.
      - exists ys. exact Hys. }
    assert (Hcase : forall row0 : list fval,
               match omap F (seq 0 (nk_t nk)) with
               | Some row1 => Some (row0, row1) | None => None end = None
               <-> p < 0 \/ 100 < p).
    { intros row0. destruct (Qlt_le_dec p 0) as [Hp|Hp0].
      { rewrite Hrows by (left; exact Hp). split; [intros _; left; exact Hp|reflexivity]. }
      destruct (Qlt_le_dec 100 p) as [Hp|Hp1].
      { rewrite Hrows by (right; exact Hp). split; [intros _; right; exact Hp|reflexivity]. }
      destruct (Hrows' Hp0 Hp1) as [ys Hys]. rewrite Hys.
      split; [discriminate|intros [H|H]; exfalso; [apply (Qlt_not_le _ _ H Hp0)|apply (Qlt_not_le _ _ H Hp1)]]. }
    destruct (Nat.eqb_spec (length times) (nk_t nk)) as [Ht|Ht].
    + rewrite Hcase. split; [intros H; left; exact H|intros [H|[H _]]; [exact H|congruence]].
    + destruct times as [|x [|y r]].
      * split; [intros _; right; split; simpl in *; lia|reflexivity].
      * rewrite Hcase. split; [intros H; left; exact H|intros [H|[_ H]]; [exact H|simpl in H; congruence]].
      * split; [intros _; right; split; simpl in *; lia|reflexivity].
Qed.

Lemma get_idif_from_4d_pet_necktangle_errors_witness :
  (1 <= nk_t (mk_necktangle (1, 1, 1)%nat 2 [[Num 1; Num 2]]))%nat /\
  get_idif_from_4d_pet_necktangle (mk_necktangle (1, 1, 1)%nat 2 [[Num 1; Num 2]]) 50 [0; 1; 2] = None.
Proof.
  split; [simpl; lia|].
  apply (proj2 (proj2 (get_idif_from_4d_pet_necktangle_errors
                         (mk_necktangle (1, 1, 1)%nat 2 [[Num 1; Num 2]]) 50 [0; 1; 2]) ltac:(simpl; lia))).
  right. simpl. split; discriminate.
Defined.

(** X: with at least one frame and a percentile in [[0, 100]],
    [get_idif_from_4d_pet_necktangle] returns the frame times as the first
    row (a single time is repeated over all frames) and one value per frame
    as the second row. *)
Theorem get_idif_from_4d_pet_necktangle_rows nk p times :
  (1 <= nk_t nk)%nat -> 0 <= p -> p <= 100 ->
  (length times = nk_t nk ->
   exists row1, get_idif_from_4d_pet_necktangle nk p times = Some (map Num times, row1) /\
                length row1 = nk_t nk) /\
  (forall x, times = [x] ->
   exists row1, get_idif_from_4d_pet_necktangle nk p times = Some (repeat (Num x) (nk_t nk), row1) /\
                length row1 = nk_t nk).
Proof.
  intros H1 Hp0 Hp1. unfold get_idif_from_4d_pet_necktangle.
  destruct (np_argmax (idif_frame_averages nk)) as [b|] eqn:Ea.
  2: { apply np_argmax_none in Ea. apply (f_equal (@length fval)) in Ea.
       rewrite idif_frame_averages_length in Ea. cbn [length] in Ea. lia. }
  destruct (nanpercentile_in_range
              (map np_nanmean (map (fun s => py_slice s (Z.of_nat b - 1) (Z.of_nat b + 2)) (nk_series nk))) 90
              ltac:(vm_compute; discriminate) ltac:(vm_compute; discriminate)) as [thr Ethr].
  rewrite Ethr.
  match goal with |- context [omap ?F (seq 0 (nk_t nk))] =>
    destruct (omap_some F (seq 0 (nk_t nk))) as [ys [Hys Hl]];
      [intros x _; apply nanpercentile_in_range; assumption|]; rewrite Hys end.
  rewrite length_seq in Hl.
  split.
  - intros Ht. rewrite Ht, Nat.eqb_refl. exists ys. split; [reflexivity|exact Hl].
  - intros x ->. exists ys. split; [|exact Hl].
    destruct (Nat.eqb_spec (length [x]) (nk_t nk)) as [Ht|Ht]; [|reflexivity].
    rewrite <- Ht. reflexivity.
Qed.

Lemma get_idif_from_4d_pet_necktangle_rows_witness :
  ((1 <= nk_t (mk_necktangle (1, 1, 2)%nat 3 [[Num 1; Num 4; Num 2]; [Num 3; Num 8; Num 5]]))%nat /\
   0 <= 50 /\ 50 <= 100 /\ length [0; 1; 2] = nk_t (mk_necktangle (1, 1, 2)%nat 3 [[Num 1; Num 4; Num 2]; [Num 3; Num 8; Num 5]])) /\
  exists row1,
    get_idif_from_4d_pet_necktangle (mk_necktangle (1, 1, 2)%nat 3 [[Num 1; Num 4; Num 2]; [Num 3; Num 8; Num 5]]) 50 [0; 1; 2]
    = Some (map Num [0; 1; 2], row1) /\
    length row1 = nk_t (mk_necktangle (1, 1, 2)%nat 3 [[Num 1; Num 4; Num 2]; [Num 3; Num 8; Num 5]]).
Proof.
  assert (H0 : 0 <= 50) by (vm_compute; discriminate).
  assert (H1 : 50 <= 100) by (vm_compute; discriminate).
  split; [split; [simpl; lia|split; [exact H0|split; [exact H1|reflexivity]]]|].
  apply (proj1 (get_idif_from_4d_pet_necktangle_rows
                  (mk_necktangle (1, 1, 2)%nat 3 [[Num 1; Num 4; Num 2]; [Num 3; Num 8; Num 5]]) 50 [0; 1; 2]
                  ltac:(simpl; lia) H0 H1)).
  reflexivity.
Defined.

(** X: when the bolus is found in the first frame ([np.argmax] gives 0)
    and every voxel series has at least three samples, the bolus window
    [bolus_index - 1 : bolus_index + 2] is [-1 : 2], an empty slice, so every
    window average, the automatic threshold and the mask are NaN and every
    value of the second row is NaN. *)
Theorem get_idif_from_4d_pet_necktangle_bolus_first_frame nk p times row0 row1 :
  np_argmax (idif_frame_averages nk) = Some 0%nat ->
  (forall s, In s (nk_series nk) -> (3 <= length s)%nat) ->
  get_idif_from_4d_pet_necktangle nk p times = Some (row0, row1) ->
  row1 = repeat NaN (nk_t nk).
Proof.
  intros Ea Hs E. unfold get_idif_from_4d_pet_necktangle in E. rewrite Ea in E.
  rewrite map_map in E.
  assert (Hw : forall s, In s (nk_series nk) ->
                 np_nanmean (py_slice s (Z.of_nat 0 - 1) (Z.of_nat 0 + 2)) = NaN).
  { intros s Hin. specialize (Hs s Hin). unfold py_slice, slice_start.
    replace (Z.of_nat 0 - 1 <? 0)%Z with true by reflexivity.
    replace (Z.of_nat 0 + 2 <? 0)%Z with false by reflexivity.
    rewrite skipn_all2; [reflexivity|]. rewrite length_firstn. lia. }
  destruct (np_nanpercentile _ 90) as [thr|] eqn:Ethr; [|discriminate].
  assert (Hthr : thr = NaN).
  { destruct (nanpercentile_all_nan
                (map (fun x => np_nanmean (py_slice x (Z.of_nat 0 - 1) (Z.of_nat 0 + 2))) (nk_series nk)) 90)
      as [H|H].
    - apply nums_map_nan. exact Hw.
    - congruence.
    - congruence. }
  subst thr.
  destruct (if Nat.eqb (length times) (nk_t nk) then _ else _) as [r0|]; [|discriminate].
  destruct (omap _ (seq 0 (nk_t nk))) as [ys|] eqn:Eo; [|discriminate].
  injection E as _ <-.
  replace (nk_t nk) with (length (seq 0 (nk_t nk))) by apply length_seq.
  refine (omap_const _ _ NaN ys _ Eo).
  intros frame _. apply nanpercentile_all_nan. apply nums_map_nan.
  intros [m v] Hin. apply in_combine_l in Hin. simpl.
  apply in_map_iff in Hin. destruct Hin as [a [<- _]]. reflexivity.
Qed.

Lemma get_idif_from_4d_pet_necktangle_bolus_first_frame_witness :
  np_argmax (idif_frame_averages (mk_necktangle (1, 1, 2)%nat 3 [[Num 9; Num 4; Num 2]; [Num 7; Num 1; Num 5]]))
    = Some 0%nat /\
  (forall s, In s (nk_series (mk_necktangle (1, 1, 2)%nat 3 [[Num 9; Num 4; Num 2]; [Num 7; Num 1; Num 5]])) ->
             (3 <= length s)%nat) /\
  get_idif_from_4d_pet_necktangle (mk_necktangle (1, 1, 2)%nat 3 [[Num 9; Num 4; Num 2]; [Num 7; Num 1; Num 5]])
                                  50 [0; 1; 2]
    = Some (map Num [0; 1; 2], [NaN; NaN; NaN]) /\
  [NaN; NaN; NaN] = repeat NaN (nk_t (mk_necktangle (1, 1, 2)%nat 3 [[Num 9; Num 4; Num 2]; [Num 7; Num 1; Num 5]])).
Proof.
  assert (Ha : np_argmax (idif_frame_averages (mk_necktangle (1, 1, 2)%nat 3 [[Num 9; Num 4; Num 2]; [Num 7; Num 1; Num 5]]))
               = Some 0%nat) by (vm_compute; reflexivity).
  assert (Hs : forall s, In s (nk_series (mk_necktangle (1, 1, 2)%nat 3 [[Num 9; Num 4; Num 2]; [Num 7; Num 1; Num 5]])) ->
               (3 <= length s)%nat).
  { intros s Hin. simpl in Hin. repeat destruct Hin as [<-|Hin]; simpl; lia. }
  assert (Hg : get_idif_from_4d_pet_necktangle (mk_necktangle (1, 1, 2)%nat 3 [[Num 9; Num 4; Num 2]; [Num 7; Num 1; Num 5]])
                                               50 [0; 1; 2]
               = Some (map Num [0; 1; 2], [NaN; NaN; NaN])) by (vm_compute; reflexivity).
  split; [exact Ha|]. split; [exact Hs|]. split; [exact Hg|].
  exact (get_idif_from_4d_pet_necktangle_bolus_first_frame _ 50 [0; 1; 2] _ _ Ha Hs Hg).
Defined.

Module LoaderFacts.

Lemma fold_min_spec (r : list Z) a :
  (fold_left Z.min r a <= a)%Z /\ forall y, In y r -> (fold_left Z.min r a <= y)%Z.
Proof.
  revert a. induction r as [|x r IH]; intros a; simpl; [split; [lia|tauto]|].
  destruct (IH (Z.min a x)) as [H1 H2]. split; [lia|].
  intros y [<-|Hy]; [lia|apply H2, Hy].
Qed.

Lemma fold_max_spec (r : list Z) a :
  (a <= fold_left Z.max r a)%Z /\ forall y, In y r -> (y <= fold_left Z.max r a)%Z.
Proof.
  revert a. induction r as [|x r IH]; intros a; simpl; [split; [lia|tauto]|].
  destruct (IH (Z.max a x)) as [H1 H2]. split; [lia|].
  intros y [<-|Hy]; [lia|apply H2, Hy].
Qed.

Lemma py_min_le xs m : py_min xs = Some m -> forall y, In y xs -> (m <= y)%Z.
Proof.
  destruct xs as [|x r]; intros H; [discriminate|]. injection H as <-.
  destruct (fold_min_spec r x) as [H1 H2]. intros y [<-|Hy]; [exact H1|apply H2, Hy].
Qed.

Lemma py_max_ge xs m : py_max xs = Some m -> forall y, In y xs -> (y <= m)%Z.
Proof.
  destruct xs as [|x r]; intros H; [discriminate|]. injection H as <-.
  destruct (fold_max_spec r x) as [H1 H2]. intros y [<-|Hy]; [exact H1|apply H2, Hy].
Qed.

Lemma np_index_in_range dim i : (0 <= i < Z.of_nat dim)%Z -> np_index dim i = Some (Z.to_nat i).
Proof.
  intros H. unfold np_index. replace ((0 <=? i) && (i <? Z.of_nat dim))%Z with true; [reflexivity|].
  symmetry. apply andb_true_iff. split; [apply Z.leb_le|apply Z.ltb_lt]; lia.
Qed.

Lemma nth_list_set {A} (m : list A) i v z m' c :
  list_set m i v = Some m' ->
  length m' = length m /\ nth c m' z = if Nat.eqb i c then v else nth c m z.
Proof.
  unfold list_set. destruct (Nat.ltb_spec i (length m)) as [Hi|Hi]; intros E; [|discriminate].
  injection E as <-.
  change (match m with [] => [] | _ :: l => skipn i l end) with (skipn (S i) m). split.
  - rewrite length_app, length_firstn, length_cons, length_skipn. lia.
  - destruct (Nat.eqb_spec i c) as [<-|Hne].
    + rewrite app_nth2 by (rewrite length_firstn; lia).
      rewrite length_firstn. replace (i - Nat.min i (length m))%nat with 0%nat by lia. reflexivity.
    + destruct (Nat.lt_ge_cases c i) as [Hc|Hc].
      * rewrite app_nth1 by (rewrite length_firstn; lia). rewrite nth_firstn.
        replace (c <? i)%nat with true by (symmetry; apply Nat.ltb_lt; exact Hc). reflexivity.
      * rewrite app_nth2 by (rewrite length_firstn; lia). rewrite length_firstn.
        replace (c - Nat.min i (length m))%nat with (S (c - S i)) by lia.
        change (nth (S (c - S i)) (v :: skipn (S i) m) z) with (nth (c - S i) (skipn (S i) m) z).
        rewrite nth_skipn. f_equal. lia.
Qed.

(** The column scatter of the loader: each step writes the series of one
    location at its cell, the last write to a cell wins. *)
Definition last_write (cell : nat -> nat) (col : nat -> list fval) (n c : nat) (a : list fval) : list fval :=
  fold_left (fun acc l => if Nat.eqb (cell l) c then col l else acc) (seq 0 n) a.

Lemma scatter_fold (step : option (list (list fval)) -> nat -> option (list (list fval)))
    (cell : nat -> nat) (col : nat -> list fval) (N n : nat) (init : list (list fval)) :
  length init = N -> (forall l, (l < n)%nat -> (cell l < N)%nat) ->
  (forall m l, (l < n)%nat -> step (Some m) l = list_set m (cell l) (col l)) ->
  exists m, fold_left step (seq 0 n) (Some init) = Some m /\ length m = N /\
            forall c, nth c m [] = last_write cell col n c (nth c init []).
Proof.
  intros Hinit Hcell Hstep. induction n as [|n IH].
  - exists init. split; [reflexivity|]. split; [exact Hinit|]. intros c. reflexivity.
  - destruct IH as [m [Em [Hl Hc]]].
    + intros l Hln. apply Hcell. lia.
    + intros m' l Hln. apply Hstep. lia.
    + rewrite seq_S, fold_left_app, Em. simpl. rewrite Hstep by lia.
      unfold list_set at 1. destruct (Nat.ltb_spec (cell n) (length m)) as [Hlt|Hge].
      2: { exfalso. specialize (Hcell n ltac:(lia)). lia. }
      destruct (nth_list_set m (cell n) (col n) [] (firstn (cell n) m ++ col n :: skipn (S (cell n)) m) 0)
        as [Hl' _]; [unfold list_set; rewrite (proj2 (Nat.ltb_lt _ _) Hlt); reflexivity|].
      eexists. split; [reflexivity|]. split; [congruence|]. intros c.
      destruct (nth_list_set m (cell n) (col n) [] (firstn (cell n) m ++ col n :: skipn (S (cell n)) m) c)
        as [_ Hn]; [unfold list_set; rewrite (proj2 (Nat.ltb_lt _ _) Hlt); reflexivity|].
      rewrite Hn, Hc. unfold last_write. rewrite seq_S, fold_left_app. reflexivity.
Qed.

Lemma last_write_last cell col n l a :
  (l < n)%nat -> (forall l', (l < l' < n)%nat -> cell l' <> cell l) ->
  last_write cell col n (cell l) a = col l.
Proof.
  intros Hl Hafter. induction n as [|n IH]; [lia|].
  unfold last_write in *. rewrite seq_S, fold_left_app. simpl.
  destruct (Nat.eq_dec l n) as [<-|Hne].
  - rewrite Nat.eqb_refl. reflexivity.
  - replace (Nat.eqb (cell n) (cell l)) with false
      by (symmetry; apply Nat.eqb_neq, Hafter; lia).
    apply IH; [lia|]. intros l' Hl'. apply Hafter. lia.
Qed.

Lemma last_write_none cell col n c a :
  (forall l, (l < n)%nat -> cell l <> c) -> last_write cell col n c a = a.
Proof.
  intros H. induction n as [|n IH]; [reflexivity|].
  unfold last_write in *. rewrite seq_S, fold_left_app. simpl.
  replace (Nat.eqb (cell n) c) with false by (symmetry; apply Nat.eqb_neq, H; lia).
  apply IH. intros l Hl. apply H. lia.
Qed.

Lemma cell_bound (i j k X Y Z : nat) :
  (i < X)%nat -> (j < Y)%nat -> (k < Z)%nat -> ((i * Y + j) * Z + k < X * Y * Z)%nat.
Proof.
  intros Hi Hj Hk.
  assert (H1 : ((i + 1) * Y <= X * Y)%nat) by (apply Nat.mul_le_mono_r; lia).
  rewrite Nat.mul_add_distr_r in H1.
  assert (H2 : ((i * Y + j + 1) * Z <= X * Y * Z)%nat) by (apply Nat.mul_le_mono_r; lia).
  rewrite Nat.mul_add_distr_r in H2. lia.
Qed.

End LoaderFacts.


Import LoaderFacts.

Lemma loader_coord r m M l :
  py_min (map qtrunc r) = Some m -> py_max (map qtrunc r) = Some M -> (l < length r)%nat ->
  np_index (Z.to_nat (M - m + 1)) (nth l (map qtrunc r) 0%Z - m) = Some (Z.to_nat (qtrunc (nth l r 0%Q) - m)) /\
  (Z.to_nat (qtrunc (nth l r 0%Q) - m) < Z.to_nat (M - m + 1))%nat.
Proof.
  intros Hm HM Hl.
  assert (Hn : nth l (map qtrunc r) 0%Z = qtrunc (nth l r 0%Q)) by apply (map_nth qtrunc r 0 l).
  assert (Hin : In (qtrunc (nth l r 0%Q)) (map qtrunc r)) by (rewrite <- Hn; apply nth_In; rewrite length_map; exact Hl).
  pose proof (py_min_le _ _ Hm _ Hin). pose proof (py_max_ge _ _ HM _ Hin).
  rewrite Hn. split; [apply np_index_in_range; lia|lia].
Qed.

(** X: [load_fslmeants_to_numpy] on a rectangular table whose first three
    lines are the x, y and z coordinates of at least two locations: the
    array has one axis per coordinate, spanning its minimum to its maximum,
    and one time axis per remaining line; every location's cell is in
    bounds and holds its series unless a later location has the same cell
    (the last write wins), and a cell that no location hits stays zero. *)
Theorem load_fslmeants_to_numpy_scatter r0 r1 r2 rest xmin ymin zmin xmax ymax zmax :
  (2 <= length r0)%nat ->
  Forall (fun r => length r = length r0) (r1 :: r2 :: rest) ->
  py_min (map qtrunc r0) = Some xmin -> py_min (map qtrunc r1) = Some ymin ->
  py_min (map qtrunc r2) = Some zmin ->
  py_max (map qtrunc r0) = Some xmax -> py_max (map qtrunc r1) = Some ymax ->
  py_max (map qtrunc r2) = Some zmax ->
  let xd := Z.to_nat (xmax - xmin + 1) in
  let yd := Z.to_nat (ymax - ymin + 1) in
  let zd := Z.to_nat (zmax - zmin + 1) in
  let cell (l : nat) : nat :=
    ((Z.to_nat (qtrunc (nth l r0 0%Q) - xmin) * yd + Z.to_nat (qtrunc (nth l r1 0%Q) - ymin)) * zd
     + Z.to_nat (qtrunc (nth l r2 0%Q) - zmin))%nat in
  let col (l : nat) : list fval := map (fun r => Num (nth l r 0%Q)) rest in
  exists series,
    load_fslmeants_to_numpy (r0 :: r1 :: r2 :: rest)
      = Some (mk_necktangle (xd, yd, zd) (length rest) series) /\
    length series = (xd * yd * zd)%nat /\
    (forall l, (l < length r0)%nat ->
       (cell l < xd * yd * zd)%nat /\
       ((forall l', (l < l' < length r0)%nat -> cell l' <> cell l) -> nth (cell l) series [] = col l)) /\
    (forall c, (c < xd * yd * zd)%nat -> (forall l, (l < length r0)%nat -> cell l <> c) ->
       nth c series [] = repeat (Num 0) (length rest)).
Proof.
  intros H2 Hrows Hx Hy Hz HX HY HZ xd yd zd cell col.
  inversion Hrows as [|? ? Hr1 Hrows']; subst. inversion Hrows' as [|? ? Hr2 Hrest]; subst.
  assert (Hcell : forall l, (l < length r0)%nat ->
            np_index xd (nth l (map qtrunc r0) 0%Z - xmin) = Some (Z.to_nat (qtrunc (nth l r0 0%Q) - xmin)) /\
            np_index yd (nth l (map qtrunc r1) 0%Z - ymin) = Some (Z.to_nat (qtrunc (nth l r1 0%Q) - ymin)) /\
            np_index zd (nth l (map qtrunc r2) 0%Z - zmin) = Some (Z.to_nat (qtrunc (nth l r2 0%Q) - zmin)) /\
            (cell l < xd * yd * zd)%nat).
  { intros l Hl.
    destruct (loader_coord r0 xmin xmax l Hx HX Hl) as [E1 B1].
    destruct (loader_coord r1 ymin ymax l Hy HY ltac:(lia)) as [E2 B2].
    destruct (loader_coord r2 zmin zmax l Hz HZ ltac:(lia)) as [E3 B3].
    split; [exact E1|]. split; [exact E2|]. split; [exact E3|]. apply cell_bound; assumption. }
  unfold load_fslmeants_to_numpy.
  replace (forallb (fun r => Nat.eqb (length r) (length r0)) (r0 :: r1 :: r2 :: rest)) with true.
  2: { symmetry. apply forallb_forall. intros r Hr. apply Nat.eqb_eq.
       destruct Hr as [<-|Hr]; [reflexivity|]. apply (proj1 (Forall_forall _ _) Hrows r Hr). }
  replace (Nat.ltb (length (r0 :: r1 :: r2 :: rest)) 2 || Nat.ltb (length r0) 2) with false
    by (symmetry; apply orb_false_iff; split; apply Nat.ltb_ge; simpl; lia).
  cbv zeta. rewrite Hx, Hy, Hz, HX, HY, HZ. fold xd yd zd.
  match goal with |- context [fold_left ?st (seq 0 (length r0)) (Some ?init)] =>
    destruct (scatter_fold st cell col (xd * yd * zd) (length r0) init) as [m [Em [Hlm Hc]]] end.
  - apply repeat_length.
  - intros l Hl. apply Hcell, Hl.
  - intros m l Hl. destruct (Hcell l Hl) as [E1 [E2 [E3 _]]]. cbv beta iota.
    rewrite E1, E2, E3. reflexivity.
  - rewrite Em. exists m. split; [reflexivity|]. split; [exact Hlm|]. split.
    + intros l Hl. split; [apply Hcell, Hl|]. intros Hafter. rewrite Hc. apply last_write_last; assumption.
    + intros c Hcn Hnone. rewrite Hc, last_write_none by exact Hnone.
      rewrite nth_repeat_lt by exact Hcn. reflexivity.
Qed.

Lemma load_fslmeants_to_numpy_scatter_witness :
  ((2 <= length [0; 1; 1]%Q)%nat /\
   Forall (fun r => length r = length ([0; 1; 1] : list Q)) [[0; 0; 0]; [5; 5; 5]; [10; 20; 30]; [11; 21; 31]] /\
   py_min (map qtrunc [0; 1; 1]) = Some 0%Z /\ py_min (map qtrunc [0; 0; 0]) = Some 0%Z /\
   py_min (map qtrunc [5; 5; 5]) = Some 5%Z /\ py_max (map qtrunc [0; 1; 1]) = Some 1%Z /\
   py_max (map qtrunc [0; 0; 0]) = Some 0%Z /\ py_max (map qtrunc [5; 5; 5]) = Some 5%Z) /\
  let xd := Z.to_nat ((1%Z) - (0%Z) + 1) in
  let yd := Z.to_nat ((0%Z) - (0%Z) + 1) in
  let zd := Z.to_nat ((5%Z) - (5%Z) + 1) in
  let cell (l : nat) : nat :=
    ((Z.to_nat (qtrunc (nth l ([0; 1; 1]%Q) 0%Q) - (0%Z)) * yd + Z.to_nat (qtrunc (nth l ([0; 0; 0]%Q) 0%Q) - (0%Z))) * zd
     + Z.to_nat (qtrunc (nth l ([5; 5; 5]%Q) 0%Q) - (5%Z)))%nat in
  let col (l : nat) : list fval := map (fun r => Num (nth l r 0%Q)) ([[10; 20; 30]; [11; 21; 31]]%Q) in
  exists series,
    load_fslmeants_to_numpy (([0; 1; 1]%Q) :: ([0; 0; 0]%Q) :: ([5; 5; 5]%Q) :: ([[10; 20; 30]; [11; 21; 31]]%Q))
      = Some (mk_necktangle (xd, yd, zd) (length ([[10; 20; 30]; [11; 21; 31]]%Q)) series) /\
    length series = (xd * yd * zd)%nat /\
    (forall l, (l < length ([0; 1; 1]%Q))%nat ->
       (cell l < xd * yd * zd)%nat /\
       ((forall l', (l < l' < length ([0; 1; 1]%Q))%nat -> cell l' <> cell l) -> nth (cell l) series [] = col l)) /\
    (forall c, (c < xd * yd * zd)%nat -> (forall l, (l < length ([0; 1; 1]%Q))%nat -> cell l <> c) ->
       nth c series [] = repeat (Num 0) (length ([[10; 20; 30]; [11; 21; 31]]%Q))).
Proof.
  assert (H : Forall (fun r => length r = length ([0; 1; 1] : list Q)) [[0; 0; 0]; [5; 5; 5]; [10; 20; 30]; [11; 21; 31]])
    by (repeat constructor).
  split; [repeat split; try reflexivity; try exact H; simpl; lia|].
  exact (load_fslmeants_to_numpy_scatter [0; 1; 1] [0; 0; 0] [5; 5; 5] [[10; 20; 30]; [11; 21; 31]]
           0 0 5 1 0 5 ltac:(simpl; lia) H eq_refl eq_refl eq_refl eq_refl eq_refl eq_refl).
Defined.

(** ** Graphical analysis: further properties *)

Module GraphFacts.







Lemma sum_xy_line m b xs :
  qsum (map (fun p => fst p * snd p) (combine xs (map (fun x => m * x + b) xs)))
  == m * qsum (map (fun x => x * x) xs) + b * qsum (map (fun x => x * 1) xs).
Proof.
  induction xs as [|x r IH]; [simpl; ring|]. cbn [map combine]. rewrite !qsum_cons, IH. simpl. ring.
Qed.

Lemma sum_y_line m b xs :
  qsum (map (fun p => 1 * snd p) (combine xs (map (fun x => m * x + b) xs)))
  == m * qsum (map (fun x => x * 1) xs) + b * qsum (map (fun _ => 1 * 1) xs).
Proof.
  induction xs as [|x r IH]; [simpl; ring|]. cbn [map combine]. rewrite !qsum_cons, IH. simpl. ring.
Qed.

Lemma trap_area_nonneg xs ys i :
  length xs = length ys -> (1 <= i < length xs)%nat ->
  (forall k, (S k < length xs)%nat -> nth k xs 0 <= nth (S k) xs 0) ->
  (forall y, In y ys -> 0 <= y) ->
  0 <= trap_area xs ys i.
Proof.
  intros Hl Hi Hx Hy. unfold trap_area.
  assert (H1 : nth (i - 1) xs 0 <= nth i xs 0)
    by (replace i with (S (i - 1)) at 2 by lia; apply Hx; lia).
  assert (H2 : 0 <= nth i ys 0) by (apply Hy, nth_In; lia).
  assert (H3 : 0 <= nth (i - 1) ys 0) by (apply Hy, nth_In; lia).
  assert (H4 : 0 <= (nth i xs 0 - nth (i - 1) xs 0) * (nth i ys 0 + nth (i - 1) ys 0))
    by (apply Qmult_le_0_compat; lra).
  unfold Qdiv. apply Qmult_le_0_compat; [exact H4|]. vm_compute. discriminate.
Qed.

Lemma cumsum_nonneg_mono (l : list Q) :
  (forall k, (k < length l)%nat -> 0 <= nth k l 0) ->
  forall k d, (k + d < length l)%nat ->
    0 <= nth k (cumsum l) 0 /\ nth k (cumsum l) 0 <= nth (k + d) (cumsum l) 0.
Proof.
  intros Hl k d. induction d as [|d IH]; intros Hkd.
  - rewrite Nat.add_0_r. split; [|apply Qle_refl].
    induction k as [|k IHk].
    + rewrite nth_cumsum_sum by lia. destruct l as [|x r]; [simpl in Hkd; lia|].
      simpl. specialize (Hl 0%nat ltac:(simpl; lia)). simpl in Hl. lra.
    + rewrite nth_cumsum_succ by lia. specialize (IHk ltac:(lia)). specialize (Hl (S k) ltac:(lia)). lra.
  - destruct (IH ltac:(lia)) as [H0 H1]. split; [exact H0|].
    replace (k + S d)%nat with (S (k + d)) by lia.
    rewrite nth_cumsum_succ by lia. specialize (Hl (S (k + d)) ltac:(lia)). lra.
Qed.

End GraphFacts.

Import GraphFacts.

(** X: when [xdata] holds two different values and [ydata] lies exactly on
    a line [slope * x + intercept], [fit_line_to_data_using_lls] returns
    that slope and intercept. *)
Theorem fit_line_to_data_using_lls_exact_line xs m b x1 x2 :
  In x1 xs -> In x2 xs -> ~ x1 == x2 ->
  exists slope intercept,
    fit_line_to_data_using_lls xs (map (fun x => m * x + b) xs) = Some (slope, intercept) /\
    slope == m /\ intercept == b.
Proof.
  intros H1 H2 H12.
  assert (Hne : xs <> []) by (intros E; rewrite E in H1; destruct H1).
  pose proof (det_zero_constant xs Hne) as Hconst.
  unfold fit_line_to_data_using_lls, lstsq.
  rewrite gram_design, rhs_design.
  unfold _line_fitting_make_rhs_matrix_from_xdata at 1.
  rewrite !length_map, Nat.eqb_refl. cbn [negb].
  pose proof (sum_xy_line m b xs) as Exy. pose proof (sum_y_line m b xs) as Ey.
  set (N := qsum (map (fun _ => 1 * 1) xs)) in *.
  set (Sx := qsum (map (fun x => x * 1) xs)) in *.
  set (Sxx := qsum (map (fun x => x * x) xs)) in *.
  set (Sxy := qsum (map (fun p => fst p * snd p) (combine xs (map (fun x => m * x + b) xs)))) in *.
  set (Sy := qsum (map (fun p => 1 * snd p) (combine xs (map (fun x => m * x + b) xs)))) in *.
  destruct (Qeq_bool (Sxx * N - Sx * Sx) 0) eqn:Edet; cbn [negb].
  - exfalso. apply Qeq_bool_iff in Edet. apply H12.
    rewrite (Hconst Edet x1 H1), (Hconst Edet x2 H2). reflexivity.
  - assert (Hdet : ~ (Sxx * N - Sx * Sx) == 0)
      by (intros E; apply Qeq_bool_iff in E; congruence).
    do 2 eexists. split; [reflexivity|].
    rewrite Exy, Ey. split; field; exact Hdet.
Qed.

Lemma fit_line_to_data_using_lls_exact_line_witness :
  In 1 [1; 2; 4] /\ In 4 [1; 2; 4] /\ ~ 1 == 4 /\
  exists slope intercept,
    fit_line_to_data_using_lls [1; 2; 4] (map (fun x => 3 * x + -2) [1; 2; 4]) = Some (slope, intercept) /\
    slope == 3 /\ intercept == -2.
Proof.
  assert (Ha : In 1 [1; 2; 4]) by (left; reflexivity).
  assert (Hb : In 4 [1; 2; 4]) by (right; right; left; reflexivity).
  assert (Hc : ~ 1 == 4) by (vm_compute; discriminate).
  split; [exact Ha|]. split; [exact Hb|]. split; [exact Hc|].
  exact (fit_line_to_data_using_lls_exact_line [1; 2; 4] 3 (-2) 1 4 Ha Hb Hc).
Defined.

(** X: for nondecreasing times and nonnegative values of equal length,
    [cumulative_trapezoidal_integral] returns [initial] at index 0 and,
    from index 1 on, nonnegative values that never decrease. *)
Theorem cumulative_trapezoidal_integral_monotone xs ys initial :
  length xs = length ys -> xs <> [] ->
  (forall k, (S k < length xs)%nat -> nth k xs 0 <= nth (S k) xs 0) ->
  (forall y, In y ys -> 0 <= y) ->
  exists r, cumulative_trapezoidal_integral xs ys initial = Some r /\ length r = length xs /\
    nth 0 r 0 = initial /\
    forall i j, (1 <= i)%nat -> (i <= j)%nat -> (j < length xs)%nat ->
      0 <= nth i r 0 /\ nth i r 0 <= nth j r 0.
Proof.
  intros Hl Hne Hx Hy.
  pose proof (length_trap_areas xs ys Hl) as HT.
  eexists. rewrite cti_shape by assumption. split; [reflexivity|].
  split; [simpl length; rewrite length_cumsum, HT; destruct xs; [congruence|simpl; lia]|].
  split; [reflexivity|]. intros i j Hi Hij Hj.
  destruct i as [|i]; [lia|]. destruct j as [|j]; [lia|]. cbn [nth].
  assert (Hnn : forall k, (k < length (trap_areas xs ys))%nat -> 0 <= nth k (trap_areas xs ys) 0).
  { intros k Hk. rewrite HT in Hk. replace k with (S k - 1)%nat by lia.
    rewrite nth_trap_areas by (exact Hl || lia). apply trap_area_nonneg; (exact Hl || exact Hx || exact Hy || lia). }
  replace j with (i + (j - i))%nat by lia.
  apply cumsum_nonneg_mono; [exact Hnn|]. rewrite HT. lia.
Qed.

Lemma cumulative_trapezoidal_integral_monotone_witness :
  length [0; 1; 3] = length [2; 0; 5] /\ [0; 1; 3] <> [] /\
  (forall k, (S k < length [0; 1; 3]%Q)%nat -> nth k [0; 1; 3] 0 <= nth (S k) [0; 1; 3] 0) /\
  (forall y, In y [2; 0; 5] -> 0 <= y) /\
  exists r, cumulative_trapezoidal_integral [0; 1; 3] [2; 0; 5] 7 = Some r /\ length r = length [0; 1; 3] /\
    nth 0 r 0 = 7 /\
    forall i j, (1 <= i)%nat -> (i <= j)%nat -> (j < length [0; 1; 3]%Q)%nat ->
      0 <= nth i r 0 /\ nth i r 0 <= nth j r 0.
Proof.
  assert (Hx : forall k, (S k < length [0; 1; 3]%Q)%nat -> nth k [0; 1; 3] 0 <= nth (S k) [0; 1; 3] 0).
  { intros k Hk. simpl in Hk. destruct k as [|[|k]]; [vm_compute; discriminate|vm_compute; discriminate|lia]. }
  assert (Hy : forall y, In y [2; 0; 5] -> 0 <= y).
  { intros y Hin. simpl in Hin. destruct Hin as [<-|[<-|[<-|[]]]]; vm_compute; discriminate. }
  split; [reflexivity|]. split; [discriminate|]. split; [exact Hx|]. split; [exact Hy|].
  apply (cumulative_trapezoidal_integral_monotone [0; 1; 3] [2; 0; 5] 7); [reflexivity|discriminate|exact Hx|exact Hy].
Defined.


